(** * three-physics: the first-person "shoot spheres" demo (main.ts)

    A shallow embedding of the demo's own logic: the key handlers, the
    first-person controller block of [tick], the projectile spawner
    [shootSphere] and the frame-sync step [updateSpheres].

    JavaScript numbers are IEEE-754 binary64 values; they are modelled by
    the standard library's executable specification [spec_float] at
    precision 53 and maximal exponent 1024, so NaN, signed zeros,
    infinities and rounding are the ones the program sees.

    Objects created with [new] are mutable and shared by reference: the
    scene graph, the physics world and the registry [sphereToUpdate] all
    point to the same meshes and bodies.  They are modelled by handles into
    two stores, one of meshes and one of bodies.

    The rendering and physics libraries are outside the repository.  Of
    three.js and cannon-es only the array bookkeeping of [add], [remove],
    [addBody] and [removeBody] and the vector arithmetic the demo calls are
    written out; [world.step] is a parameter of [tick].  The repository's
    two other entry points, a variant of the demo with neither controller
    nor culling and an orbit-camera viewer, are not modelled. *)

From Stdlib Require Import ZArith Bool String Lia.
From Stdlib Require Import Floats.SpecFloat.
From stdpp Require Import base tactics option list functions.

Open Scope Z_scope.

(** ** Numbers *)

Module Num.

Definition t : Type := spec_float.

Definition prec : Z := 53.
Definition emax : Z := 1024.

Definition add (a b : t) : t := SFadd prec emax a b.
Definition sub (a b : t) : t := SFsub prec emax a b.
Definition mul (a b : t) : t := SFmul prec emax a b.
Definition div (a b : t) : t := SFdiv prec emax a b.
Definition sqrt (a : t) : t := SFsqrt prec emax a.
Definition neg (a : t) : t := SFopp a.

(** [a < b] and [a === b] on numbers. *)
Definition ltb (a b : t) : bool := SFltb a b.
Definition eqb (a b : t) : bool := SFeqb a b.

(** An integer literal. *)
Definition ofZ (z : Z) : t := binary_normalize prec emax z 0 false.

(** A decimal literal [n / 10^k]: the double nearest to the quotient. *)
Definition ofDec (n : Z) (k : nat) : t := div (ofZ n) (ofZ (10 ^ Z.of_nat k)).

(** [Number(b)] for a boolean. *)
Definition ofBool (b : bool) : t := if b then ofZ 1 else ofZ 0.

Definition is_nan (a : t) : bool :=
  match a with S754_nan => true | _ => false end.

Definition is_zero (a : t) : bool :=
  match a with S754_zero _ => true | _ => false end.

Definition is_finite (a : t) : bool :=
  match a with
  | S754_zero _ | S754_finite _ _ _ => true
  | S754_infinity _ | S754_nan => false
  end.

(** JavaScript truthiness of a number: [0], [-0] and [NaN] are falsy. *)
Definition truthy (a : t) : bool := negb (is_zero a || is_nan a).

(** [a || b] on numbers. *)
Definition or (a b : t) : t := if truthy a then a else b.

End Num.

Declare Scope num_scope.
Delimit Scope num_scope with num.
Bind Scope num_scope with Num.t.
Infix "+" := Num.add : num_scope.
Infix "-" := Num.sub : num_scope.
Infix "*" := Num.mul : num_scope.
Infix "/" := Num.div : num_scope.
Notation "- a" := (Num.neg a) : num_scope.
Infix "<?" := Num.ltb : num_scope.
Infix "=?" := Num.eqb : num_scope.

(** ** Vectors and quaternions (the part of three.js the demo calls) *)

Module Vector3.

Record t : Type := mk { x : Num.t; y : Num.t; z : Num.t }.

(** [new THREE.Vector3()] *)
Definition zero : t := mk (Num.ofZ 0) (Num.ofZ 0) (Num.ofZ 0).

Definition add (a b : t) : t :=
  mk (x a + x b)%num (y a + y b)%num (z a + z b)%num.

Definition multiplyScalar (a : t) (s : Num.t) : t :=
  mk (x a * s)%num (y a * s)%num (z a * s)%num.

Definition addScaledVector (a v : t) (s : Num.t) : t :=
  mk (x a + x v * s)%num (y a + y v * s)%num (z a + z v * s)%num.

Definition length (a : t) : Num.t :=
  Num.sqrt (x a * x a + y a * y a + z a * z a)%num.

Definition divideScalar (a : t) (s : Num.t) : t :=
  multiplyScalar a (Num.ofZ 1 / s)%num.

(** [normalize() { return this.divideScalar(this.length() || 1) }] *)
Definition normalize (a : t) : t :=
  divideScalar a (Num.or (length a) (Num.ofZ 1)).

Definition crossVectors (a b : t) : t :=
  mk (y a * z b - z a * y b)%num
     (z a * x b - x a * z b)%num
     (x a * y b - y a * x b)%num.

Definition set_x (a : t) (v : Num.t) : t := mk v (y a) (z a).
Definition set_y (a : t) (v : Num.t) : t := mk (x a) v (z a).
Definition set_z (a : t) (v : Num.t) : t := mk (x a) (y a) v.

End Vector3.

Module Quaternion.

Record t : Type := mk { x : Num.t; y : Num.t; z : Num.t; w : Num.t }.

(** [new Quaternion()] is the identity rotation. *)
Definition identity : t :=
  mk (Num.ofZ 0) (Num.ofZ 0) (Num.ofZ 0) (Num.ofZ 1).

End Quaternion.

(** ** Physics bodies and meshes *)

Inductive Shape : Type :=
  | PlaneShape
  | SphereShape (radius : Num.t).

Module Body.

(** The fields of a [CANNON.Body] the demo sets or reads. *)
Record t : Type := mk {
  mass : Num.t;
  shape : Shape;
  position : Vector3.t;
  quaternion : Quaternion.t;
  velocity : Vector3.t;
  linearDamping : Num.t
}.

Definition is_sphere (b : t) : bool :=
  match shape b with SphereShape _ => true | PlaneShape => false end.

End Body.

Inductive Geometry : Type :=
  | PlaneGeometry (width height : Num.t)
  | SphereGeometry (radius : Num.t) (widthSegments heightSegments : nat).

Module Mesh.

(** The fields of a [THREE.Mesh] the demo sets or reads. *)
Record t : Type := mk {
  geometry : Geometry;
  position : Vector3.t;
  quaternion : Quaternion.t;
  castShadow : bool;
  receiveShadow : bool
}.

Definition is_sphere (m : t) : bool :=
  match geometry m with SphereGeometry _ _ _ => true | PlaneGeometry _ _ => false end.

(** [mesh.position.copy(p); mesh.quaternion.copy(q)] *)
Definition copy_transform (p : Vector3.t) (q : Quaternion.t) (m : t) : t :=
  mk (geometry m) p q (castShadow m) (receiveShadow m).

End Mesh.

(** Handles of the two stores. *)
Definition MeshRef : Type := nat.
Definition BodyRef : Type := nat.

(** The children of the scene. *)
Inductive Object3D : Type :=
  | CameraObj
  | AmbientLightObj
  | DirectionalLightObj
  | MeshObj (h : MeshRef).

Global Instance Object3D_eq_dec : EqDecision Object3D.
Proof. solve_decision. Defined.

(** One element of [sphereToUpdate]: [{ mesh, body }]. *)
Record Entry : Type := mkEntry { mesh : MeshRef; body : BodyRef }.

Global Instance Entry_eq_dec : EqDecision Entry.
Proof. solve_decision. Defined.

(** [Array.prototype.indexOf] followed by [splice(index, 1)] when the
    element is found: the first occurrence is removed. *)
Fixpoint remove_first {A : Type} `{EqDecision A} (a : A) (l : list A) : list A :=
  match l with
  | [] => []
  | b :: l' => if decide (a = b) then l' else b :: remove_first a l'
  end.

(** ** The camera and the pointer-lock controls

    The camera's orientation is driven by the pointer-lock library; the demo
    only reads three things from it: column 0 of [camera.matrix] (its right
    axis), [camera.up], and the result of [camera.getWorldDirection]. *)

Module Camera.

Record t : Type := mk {
  position : Vector3.t;
  up : Vector3.t;
  matrixColumn0 : Vector3.t;
  worldDirection : Vector3.t
}.

Definition set_position (c : t) (p : Vector3.t) : t :=
  mk p (up c) (matrixColumn0 c) (worldDirection c).

(** [PointerLockControls.moveRight(distance)] *)
Definition moveRight (c : t) (distance : Num.t) : t :=
  set_position c (Vector3.addScaledVector (position c) (matrixColumn0 c) distance).

(** [PointerLockControls.moveForward(distance)]: along [up × right]. *)
Definition moveForward (c : t) (distance : Num.t) : t :=
  set_position c
    (Vector3.addScaledVector (position c)
       (Vector3.crossVectors (up c) (matrixColumn0 c)) distance).

End Camera.

(** ** Program state *)

(** The module-level variables of the controller. *)
Record Player : Type := mkPlayer {
  moveForward : bool;
  moveBackward : bool;
  moveLeft : bool;
  moveRight : bool;
  canJump : bool;
  velocity : Vector3.t;
  direction : Vector3.t;
  camera : Camera.t;
  isLocked : bool
}.

(** The scene graph, the physics world, the two stores and the registry.
    [nextMesh] and [nextBody] are the handles the next [new] will return;
    what the stores hold at handles not yet allocated is of no consequence. *)
Record Sim : Type := mkSim {
  scene : list Object3D;
  world : list BodyRef;
  meshes : MeshRef -> Mesh.t;
  bodies : BodyRef -> Body.t;
  sphereToUpdate : list Entry;
  nextMesh : MeshRef;
  nextBody : BodyRef
}.

Record State : Type := mkState {
  player : Player;
  sim : Sim;
  previousTime : Num.t
}.

Definition set_moveForward (b : bool) (p : Player) : Player :=
  mkPlayer b (moveBackward p) (moveLeft p) (moveRight p) (canJump p)
           (velocity p) (direction p) (camera p) (isLocked p).
Definition set_moveBackward (b : bool) (p : Player) : Player :=
  mkPlayer (moveForward p) b (moveLeft p) (moveRight p) (canJump p)
           (velocity p) (direction p) (camera p) (isLocked p).
Definition set_moveLeft (b : bool) (p : Player) : Player :=
  mkPlayer (moveForward p) (moveBackward p) b (moveRight p) (canJump p)
           (velocity p) (direction p) (camera p) (isLocked p).
Definition set_moveRight (b : bool) (p : Player) : Player :=
  mkPlayer (moveForward p) (moveBackward p) (moveLeft p) b (canJump p)
           (velocity p) (direction p) (camera p) (isLocked p).
Definition set_canJump (b : bool) (p : Player) : Player :=
  mkPlayer (moveForward p) (moveBackward p) (moveLeft p) (moveRight p) b
           (velocity p) (direction p) (camera p) (isLocked p).
Definition set_velocity (v : Vector3.t) (p : Player) : Player :=
  mkPlayer (moveForward p) (moveBackward p) (moveLeft p) (moveRight p) (canJump p)
           v (direction p) (camera p) (isLocked p).
Definition set_direction (d : Vector3.t) (p : Player) : Player :=
  mkPlayer (moveForward p) (moveBackward p) (moveLeft p) (moveRight p) (canJump p)
           (velocity p) d (camera p) (isLocked p).
Definition set_camera (c : Camera.t) (p : Player) : Player :=
  mkPlayer (moveForward p) (moveBackward p) (moveLeft p) (moveRight p) (canJump p)
           (velocity p) (direction p) c (isLocked p).
Definition set_isLocked (b : bool) (p : Player) : Player :=
  mkPlayer (moveForward p) (moveBackward p) (moveLeft p) (moveRight p) (canJump p)
           (velocity p) (direction p) (camera p) b.

Definition set_sphereToUpdate (l : list Entry) (s : Sim) : Sim :=
  mkSim (scene s) (world s) (meshes s) (bodies s) l (nextMesh s) (nextBody s).
Definition set_bodies (bs : BodyRef -> Body.t) (s : Sim) : Sim :=
  mkSim (scene s) (world s) (meshes s) bs (sphereToUpdate s) (nextMesh s) (nextBody s).

(** ** Literals of the program *)

Definition cullThreshold : Num.t := Eval vm_compute in Num.ofZ (-50).
Definition shootVelocity : Num.t := Eval vm_compute in Num.ofZ 20.
Definition jumpImpulse : Num.t := Eval vm_compute in Num.ofZ 350.
Definition eyeHeight : Num.t := Eval vm_compute in Num.ofZ 10.
Definition damping : Num.t := Eval vm_compute in Num.ofZ 10.
Definition acceleration : Num.t := Eval vm_compute in Num.ofZ 400.
(** [9.8 * 100.0], folded as JavaScript evaluates it. *)
Definition gravity : Num.t := Eval vm_compute in (Num.ofDec 98 1 * Num.ofZ 100)%num.
Definition sphereRadius : Num.t := Eval vm_compute in Num.ofDec 5 1.

(** ** Scene graph and physics world operations *)

(** [scene.add(object)]: the object leaves its former parent, which can only
    be the scene itself, and is pushed at the end of the children. *)
Definition scene_add (o : Object3D) (children : list Object3D) : list Object3D :=
  remove_first o children ++ [o].

(** [scene.remove(object)] *)
Definition scene_remove (o : Object3D) (children : list Object3D) : list Object3D :=
  remove_first o children.

(** [world.addBody(body)]: a body already in the world is not added twice. *)
Definition world_addBody (b : BodyRef) (bs : list BodyRef) : list BodyRef :=
  if decide (b ∈ bs) then bs else bs ++ [b].

(** [world.removeBody(body)] *)
Definition world_removeBody (b : BodyRef) (bs : list BodyRef) : list BodyRef :=
  remove_first b bs.

(** ** shootSphere *)

Definition shootSphere (cam : Camera.t) (s : Sim) : Sim :=
  let radius := sphereRadius in
  let direction := Camera.worldDirection cam in
  let startPosition :=
    Vector3.add (Camera.position cam) (Vector3.multiplyScalar direction (Num.ofZ 1)) in
  let newBody :=
    Body.mk (Num.ofZ 2) (SphereShape radius)
      (Vector3.mk (Vector3.x startPosition) (Vector3.y startPosition) (Vector3.z startPosition))
      Quaternion.identity
      (Vector3.mk (Vector3.x direction * shootVelocity)%num
                  (Vector3.y direction * shootVelocity)%num
                  (Vector3.z direction * shootVelocity)%num)
      (Num.ofDec 1 1) in
  let b := nextBody s in
  let newMesh :=
    Mesh.mk (SphereGeometry radius 16 32) Vector3.zero Quaternion.identity true false in
  let m := nextMesh s in
  mkSim (scene_add (MeshObj m) (scene s))
        (world_addBody b (world s))
        (<[m := newMesh]> (meshes s))
        (<[b := newBody]> (bodies s))
        (sphereToUpdate s ++ [mkEntry m b])
        (S m) (S b).

(** ** updateSpheres *)

(** [body.position.y < -50] *)
Definition outOfBounds (bs : BodyRef -> Body.t) (e : Entry) : bool :=
  (Vector3.y (Body.position (bs (body e))) <? cullThreshold)%num.

(** The body of the loop at index [i], where [sphereToUpdate[i]] is [e]. *)
Definition updateSphere (i : nat) (e : Entry) (s : Sim) : Sim :=
  if outOfBounds (bodies s) e then
    mkSim (scene_remove (MeshObj (mesh e)) (scene s))
          (world_removeBody (body e) (world s))
          (meshes s) (bodies s)
          (delete i (sphereToUpdate s))
          (nextMesh s) (nextBody s)
  else
    let b := bodies s (body e) in
    mkSim (scene s) (world s)
          (alter (Mesh.copy_transform (Body.position b) (Body.quaternion b)) (mesh e) (meshes s))
          (bodies s) (sphereToUpdate s) (nextMesh s) (nextBody s).

(** The loop [for (let i = n - 1; i >= 0; i--)].  Reading an index outside
    the array would make the destructuring throw and leave the state as it
    is; by [updateSpheres_from_prefix] every index the loop reads is inside the
    array. *)
Fixpoint updateSpheres_from (n : nat) (s : Sim) : Sim :=
  match n with
  | O => s
  | S i =>
      match sphereToUpdate s !! i with
      | Some e => updateSpheres_from i (updateSphere i e s)
      | None => s
      end
  end.

Definition updateSpheres (s : Sim) : Sim :=
  updateSpheres_from (length (sphereToUpdate s)) s.

(** ** Input *)

Inductive KeyboardEvent : Type :=
  | KeyDown (code : string)
  | KeyUp (code : string).

Definition eventCode (ev : KeyboardEvent) : string :=
  match ev with KeyDown c | KeyUp c => c end.

Definition handleKeyDown (code : string) (p : Player) : Player :=
  if (code =? "KeyW")%string || (code =? "ArrowUp")%string then
    set_moveForward true p
  else if (code =? "KeyA")%string || (code =? "ArrowLeft")%string then
    set_moveLeft true p
  else if (code =? "KeyS")%string || (code =? "ArrowDown")%string then
    set_moveBackward true p
  else if (code =? "KeyD")%string || (code =? "ArrowRight")%string then
    set_moveRight true p
  else if (code =? "Space")%string then
    if canJump p then
      set_canJump false
        (set_velocity (Vector3.set_y (velocity p) (Vector3.y (velocity p) + jumpImpulse)%num) p)
    else p
  else p.

Definition handleKeyUp (code : string) (p : Player) : Player :=
  if (code =? "KeyW")%string || (code =? "ArrowUp")%string then
    set_moveForward false p
  else if (code =? "KeyA")%string || (code =? "ArrowLeft")%string then
    set_moveLeft false p
  else if (code =? "KeyS")%string || (code =? "ArrowDown")%string then
    set_moveBackward false p
  else if (code =? "KeyD")%string || (code =? "ArrowRight")%string then
    set_moveRight false p
  else p.

(** The document's key listeners. *)
Definition dispatchKey (ev : KeyboardEvent) (p : Player) : Player :=
  match ev with
  | KeyDown c => handleKeyDown c p
  | KeyUp c => handleKeyUp c p
  end.

Definition dispatchKeys (evs : list KeyboardEvent) (p : Player) : Player :=
  fold_left (fun q ev => dispatchKey ev q) evs p.

(** The window's click listener: [if (controls.isLocked) shootSphere()]. *)
Definition onClick (st : State) : State :=
  if isLocked (player st) then
    mkState (player st) (shootSphere (camera (player st)) (sim st)) (previousTime st)
  else st.

(** ** The first-person controller (the [controls.isLocked] block of [tick]) *)

(** Damping and gravity. *)
Definition controllerDamping (deltaTime : Num.t) (p : Player) : Player :=
  let v := velocity p in
  let v := Vector3.set_x v (Vector3.x v - Vector3.x v * damping * deltaTime)%num in
  let v := Vector3.set_z v (Vector3.z v - Vector3.z v * damping * deltaTime)%num in
  let v := Vector3.set_y v (Vector3.y v - gravity * deltaTime)%num in
  set_velocity v p.

(** The direction computation and the acceleration along it. *)
Definition controllerDirection (deltaTime : Num.t) (p : Player) : Player :=
  let d := direction p in
  let d := Vector3.set_z d (Num.ofBool (moveForward p) - Num.ofBool (moveBackward p))%num in
  let d := Vector3.set_x d (Num.ofBool (moveRight p) - Num.ofBool (moveLeft p))%num in
  let d := Vector3.normalize d in
  let v := velocity p in
  let v :=
    if moveForward p || moveBackward p
    then Vector3.set_z v (Vector3.z v - Vector3.z d * acceleration * deltaTime)%num
    else v in
  let v :=
    if moveLeft p || moveRight p
    then Vector3.set_x v (Vector3.x v - Vector3.x d * acceleration * deltaTime)%num
    else v in
  set_direction d (set_velocity v p).

(** [controls.moveRight], [controls.moveForward] and the vertical
    integration. *)
Definition controllerMove (deltaTime : Num.t) (p : Player) : Player :=
  let v := velocity p in
  let c := Camera.moveRight (camera p) (- Vector3.x v * deltaTime)%num in
  let c := Camera.moveForward c (- Vector3.z v * deltaTime)%num in
  let c :=
    Camera.set_position c
      (Vector3.set_y (Camera.position c)
         (Vector3.y (Camera.position c) + Vector3.y v * deltaTime)%num) in
  set_camera c p.

(** [if (camera.position.y < 10) { ... }] *)
Definition groundClamp (p : Player) : Player :=
  if (Vector3.y (Camera.position (camera p)) <? eyeHeight)%num then
    set_canJump true
      (set_camera
         (Camera.set_position (camera p)
            (Vector3.set_y (Camera.position (camera p)) eyeHeight))
         (set_velocity (Vector3.set_y (velocity p) (Num.ofZ 0)) p))
  else p.

Definition controller (deltaTime : Num.t) (p : Player) : Player :=
  groundClamp
    (controllerMove deltaTime
       (controllerDirection deltaTime (controllerDamping deltaTime p))).

(** ** tick

    [world.step] belongs to the physics library.  It moves bodies; it does
    not add or remove them and does not change their shapes. *)
Definition WorldStep : Type :=
  Num.t -> Num.t -> nat -> list BodyRef -> (BodyRef -> Body.t) -> BodyRef -> Body.t.

Definition keeps_shapes (step : WorldStep) : Prop :=
  forall fixedDt dt n w bs h, Body.shape (step fixedDt dt n w bs h) = Body.shape (bs h).

Definition tick (step : WorldStep) (elapsedTime : Num.t) (st : State) : State :=
  let deltaTime := (elapsedTime - previousTime st)%num in
  let s := sim st in
  let s := set_bodies (step (Num.ofZ 1 / Num.ofZ 60)%num deltaTime 3%nat (world s) (bodies s)) s in
  let p := if isLocked (player st) then controller deltaTime (player st) else player st in
  mkState p (updateSpheres s) elapsedTime.

(** ** The state after the module has been loaded *)

Definition planeMesh : Mesh.t :=
  Mesh.mk (PlaneGeometry (Num.ofZ 2000) (Num.ofZ 2000))
          Vector3.zero Quaternion.identity false true.

Definition planeBody : Body.t :=
  Body.mk (Num.ofZ 0) PlaneShape Vector3.zero Quaternion.identity Vector3.zero (Num.ofZ 0).

Definition initialCamera : Camera.t :=
  Camera.mk (Vector3.mk (Num.ofZ 0) (Num.ofZ 10) (Num.ofZ 0))
            (Vector3.mk (Num.ofZ 0) (Num.ofZ 1) (Num.ofZ 0))
            (Vector3.mk (Num.ofZ 1) (Num.ofZ 0) (Num.ofZ 0))
            (Vector3.mk (Num.ofZ 0) (Num.ofZ 0) (Num.ofZ (-1))).

Definition initialPlayer : Player :=
  mkPlayer false false false false false Vector3.zero Vector3.zero initialCamera false.

Definition initialSim : Sim :=
  mkSim (scene_add CameraObj
           (scene_add (MeshObj 0%nat)
              (scene_add DirectionalLightObj
                 (scene_add AmbientLightObj (scene_add CameraObj [])))))
        (world_addBody 0%nat [])
        (fun _ => planeMesh) (fun _ => planeBody) [] 1%nat 1%nat.

Definition initialState : State :=
  mkState initialPlayer initialSim (Num.ofZ 0).

(** ** Vocabulary of the properties *)

(** Projectiles are the sphere meshes of the scene and the sphere bodies of
    the world; the ground plane, the lights and the camera are not. *)
Definition isProjectileMesh (ms : MeshRef -> Mesh.t) (o : Object3D) : bool :=
  match o with
  | MeshObj h => Mesh.is_sphere (ms h)
  | _ => false
  end.

Definition projectileMeshes (s : Sim) : list Object3D :=
  List.filter (isProjectileMesh (meshes s)) (scene s).

Definition projectileBodies (s : Sim) : list BodyRef :=
  List.filter (fun b => Body.is_sphere (bodies s b)) (world s).

Definition entryMesh (e : Entry) : Object3D := MeshObj (mesh e).

(** The registry, the scene and the world agree. *)
Record consistent (s : Sim) : Prop := mkConsistent {
  scene_nodup : NoDup (scene s);
  world_nodup : NoDup (world s);
  meshes_registered : projectileMeshes s = entryMesh <$> sphereToUpdate s;
  bodies_registered : projectileBodies s = body <$> sphereToUpdate s;
  meshes_allocated : forall h, MeshObj h ∈ scene s -> (h < nextMesh s)%nat;
  bodies_allocated : forall b, b ∈ world s -> (b < nextBody s)%nat
}.

(** What the program can do to the simulation: spawn, sync, and let the
    physics library move the bodies. *)
Inductive reachable : Sim -> Prop :=
  | reach_init : reachable initialSim
  | reach_shoot cam s : reachable s -> reachable (shootSphere cam s)
  | reach_update s : reachable s -> reachable (updateSpheres s)
  | reach_step (step : WorldStep) fixedDt dt n s :
      keeps_shapes step -> reachable s ->
      reachable (set_bodies (step fixedDt dt n (world s) (bodies s)) s).

(** An entry is removed when its mesh has left the scene, its body has left
    the world and the registry no longer holds it; it is retained when all
    three are still there. *)
Definition removed (s : Sim) (e : Entry) : Prop :=
  (entryMesh e ∉ scene s) /\ (body e ∉ world s) /\ (e ∉ sphereToUpdate s).

Definition retained (s : Sim) (e : Entry) : Prop :=
  (entryMesh e ∈ scene s) /\ (body e ∈ world s) /\ (e ∈ sphereToUpdate s).

(** The mesh shows the body's transform. *)
Definition synced (s : Sim) (e : Entry) : Prop :=
  Mesh.position (meshes s (mesh e)) = Body.position (bodies s (body e)) /\
  Mesh.quaternion (meshes s (mesh e)) = Body.quaternion (bodies s (body e)).

(** The effect of one loop iteration on everything but the registry: the
    iteration itself, with the registry put back afterwards. *)
Definition visit (e : Entry) (s : Sim) : Sim :=
  set_sphereToUpdate (sphereToUpdate s) (updateSphere 0 e (set_sphereToUpdate [] s)).

Definition kept (bs : BodyRef -> Body.t) (e : Entry) : bool := negb (outOfBounds bs e).

(** The first entry of a list that survives and draws mesh [h]: the last one
    the backwards loop writes to [h]. *)
Definition lastWriter (bs : BodyRef -> Body.t) (h : MeshRef) (l : list Entry) : option Entry :=
  List.find (fun e => kept bs e && Nat.eqb (mesh e) h) l.

(** The movement flags and the key codes bound to them. *)
Inductive Flag : Type := Forward | Backward | Left | Right.

Global Instance Flag_eq_dec : EqDecision Flag.
Proof. solve_decision. Defined.

Definition flagValue (f : Flag) (p : Player) : bool :=
  match f with
  | Forward => moveForward p
  | Backward => moveBackward p
  | Left => moveLeft p
  | Right => moveRight p
  end.

Definition bound (f : Flag) (code : string) : bool :=
  match f with
  | Forward => (code =? "KeyW")%string || (code =? "ArrowUp")%string
  | Left => (code =? "KeyA")%string || (code =? "ArrowLeft")%string
  | Backward => (code =? "KeyS")%string || (code =? "ArrowDown")%string
  | Right => (code =? "KeyD")%string || (code =? "ArrowRight")%string
  end.

Definition isKeyDown (ev : KeyboardEvent) : bool :=
  match ev with KeyDown _ => true | KeyUp _ => false end.

(** The most recent event of a sequence whose key is bound to [f]. *)
Definition mostRecent (f : Flag) (evs : list KeyboardEvent) : option KeyboardEvent :=
  List.find (fun ev => bound f (eventCode ev)) (rev evs).

Definition vecNoNaN (v : Vector3.t) : Prop :=
  Num.is_nan (Vector3.x v) = false /\
  Num.is_nan (Vector3.y v) = false /\
  Num.is_nan (Vector3.z v) = false.

Definition vecFinite (v : Vector3.t) : Prop :=
  Num.is_finite (Vector3.x v) = true /\
  Num.is_finite (Vector3.y v) = true /\
  Num.is_finite (Vector3.z v) = true.

(** Componentwise [===]: numerically equal, and neither side is NaN. *)
Definition vecSame (a b : Vector3.t) : Prop :=
  Num.eqb (Vector3.x a) (Vector3.x b) = true /\
  Num.eqb (Vector3.y a) (Vector3.y b) = true /\
  Num.eqb (Vector3.z a) (Vector3.z b) = true.

Definition vecZero (v : Vector3.t) : Prop :=
  Num.is_zero (Vector3.x v) = true /\
  Num.is_zero (Vector3.y v) = true /\
  Num.is_zero (Vector3.z v) = true.

(** The horizontal axis the controller moves the camera forward along. *)
Definition forwardAxis (c : Camera.t) : Vector3.t :=
  Vector3.crossVectors (Camera.up c) (Camera.matrixColumn0 c).

(** The direction the program computes depends on the four flags only. *)
Definition steering (p : Player) : Vector3.t :=
  Vector3.normalize
    (Vector3.set_x
       (Vector3.set_z (direction p)
          (Num.ofBool (moveForward p) - Num.ofBool (moveBackward p))%num)
       (Num.ofBool (moveRight p) - Num.ofBool (moveLeft p))%num).


(** ** Sample states *)

(** Two spheres shot from the initial camera. *)
Definition twoSpheres : Sim :=
  shootSphere initialCamera (shootSphere initialCamera initialSim).

Definition atHeight (y : Num.t) (b : Body.t) : Body.t :=
  Body.mk (Body.mass b) (Body.shape b) (Vector3.set_y (Body.position b) y)
          (Body.quaternion b) (Body.velocity b) (Body.linearDamping b).

(** The same after the first sphere has fallen to [-51] and the second to
    exactly [-50]. *)
Definition fallenSpheres : Sim :=
  set_bodies
    (fun h =>
       if Nat.eqb h 1 then atHeight (Num.ofZ (-51)) (bodies twoSpheres h)
       else if Nat.eqb h 2 then atHeight (Num.ofZ (-50)) (bodies twoSpheres h)
       else bodies twoSpheres h)
    twoSpheres.

Definition firstSphere : Entry := mkEntry 1%nat 1%nat.
Definition secondSphere : Entry := mkEntry 2%nat 2%nat.




(** The initial player with the forward key held. *)
Definition walkingPlayer : Player := set_moveForward true initialPlayer.

(** The double [2^1016], about [7e305]. *)
Definition hugeTime : Num.t := S754_finite false (2 ^ 52) 964.

(** A frame time of 16 ms. *)
Definition frameTime : Num.t := Num.ofDec 16 3.


(** The initial player standing on the ground, free to jump. *)
Definition standingPlayer : Player := set_canJump true initialPlayer.

(** ** The resize listener

    All three entry points install the same listener.  What it writes is
    kept in one record: [sizes], [camera.aspect], and the size and pixel
    ratio handed to the renderer. *)

(** [Math.min] on two numbers: NaN if either is NaN, and [-0] below [+0]. *)
Definition mathMin (a b : Num.t) : Num.t :=
  if Num.is_nan a || Num.is_nan b then S754_nan
  else if Num.ltb a b then a
  else if Num.ltb b a then b
  else match a, b with
       | S754_zero sa, S754_zero sb => S754_zero (sa || sb)
       | _, _ => a
       end.

Record Viewport : Type := mkViewport {
  sizesWidth : Num.t;
  sizesHeight : Num.t;
  cameraAspect : Num.t;
  rendererWidth : Num.t;
  rendererHeight : Num.t;
  rendererPixelRatio : Num.t
}.

Definition onResize (innerWidth innerHeight devicePixelRatio : Num.t) (v : Viewport) : Viewport :=
  let v := mkViewport innerWidth (sizesHeight v) (cameraAspect v)
                      (rendererWidth v) (rendererHeight v) (rendererPixelRatio v) in
  let v := mkViewport (sizesWidth v) innerHeight (cameraAspect v)
                      (rendererWidth v) (rendererHeight v) (rendererPixelRatio v) in
  let v := mkViewport (sizesWidth v) (sizesHeight v) (sizesWidth v / sizesHeight v)%num
                      (rendererWidth v) (rendererHeight v) (rendererPixelRatio v) in
  let v := mkViewport (sizesWidth v) (sizesHeight v) (cameraAspect v)
                      (sizesWidth v) (sizesHeight v) (rendererPixelRatio v) in
  mkViewport (sizesWidth v) (sizesHeight v) (cameraAspect v)
             (rendererWidth v) (rendererHeight v) (mathMin devicePixelRatio (Num.ofZ 2)).

(** ** The entry point without controller

    The second entry point has the same spawner and click listener, no key
    listeners, and a [tick] that copies every body's transform to its mesh
    and never removes anything. *)

Module Basic.

Definition shootSphere (cam : Camera.t) (s : Sim) : Sim :=
  let cameraDirection := Camera.worldDirection cam in
  let startPosition :=
    Vector3.add (Camera.position cam)
                (Vector3.multiplyScalar cameraDirection (Num.ofZ 1)) in
  let shootVelocity := Num.ofZ 20 in
  let velocity :=
    Vector3.mk (Vector3.x cameraDirection * shootVelocity)%num
               (Vector3.y cameraDirection * shootVelocity)%num
               (Vector3.z cameraDirection * shootVelocity)%num in
  let newBody :=
    Body.mk (Num.ofZ 2) (SphereShape (Num.ofDec 5 1))
      (Vector3.mk (Vector3.x startPosition) (Vector3.y startPosition) (Vector3.z startPosition))
      Quaternion.identity
      (Vector3.mk (Vector3.x velocity) (Vector3.y velocity) (Vector3.z velocity))
      (Num.ofDec 1 1) in
  let b := nextBody s in
  let newMesh :=
    Mesh.mk (SphereGeometry (Num.ofDec 5 1) 16 32) Vector3.zero Quaternion.identity true false in
  let m := nextMesh s in
  mkSim (scene_add (MeshObj m) (scene s))
        (world_addBody b (world s))
        (<[m := newMesh]> (meshes s))
        (<[b := newBody]> (bodies s))
        (sphereToUpdate s ++ [mkEntry m b])
        (S m) (S b).

Definition onClick (st : State) : State :=
  if isLocked (player st) then
    mkState (player st) (shootSphere (camera (player st)) (sim st)) (previousTime st)
  else st.

(** The body of [for (const sphere of sphereToUpdate)]. *)
Definition syncSphere (sphere : Entry) (s : Sim) : Sim :=
  let b := bodies s (body sphere) in
  mkSim (scene s) (world s)
        (alter (Mesh.copy_transform (Body.position b) (Body.quaternion b)) (mesh sphere) (meshes s))
        (bodies s) (sphereToUpdate s) (nextMesh s) (nextBody s).

Definition syncSpheres (s : Sim) : Sim :=
  fold_left (fun acc sphere => syncSphere sphere acc) (sphereToUpdate s) s.

Definition tick (step : WorldStep) (elapsedTime : Num.t) (st : State) : State :=
  let deltaTime := (elapsedTime - previousTime st)%num in
  let s := sim st in
  let s := set_bodies (step (Num.ofZ 1 / Num.ofZ 60)%num deltaTime 3%nat (world s) (bodies s)) s in
  mkState (player st) (syncSpheres s) elapsedTime.

End Basic.

(** ** Runs of the program

    What the browser can deliver: key events, clicks, the pointer lock
    being taken or released, the mouse turning the camera, and animation
    frames.  A frame carries the clock reading and what the physics library
    does in [world.step]. *)
Inductive Action : Type :=
  | Key (ev : KeyboardEvent)
  | Click
  | Lock
  | Unlock
  | Look (matrixColumn0 worldDirection : Vector3.t)
  | Frame (step : WorldStep) (elapsedTime : Num.t).

Definition turnCamera (matrixColumn0 worldDirection : Vector3.t) (p : Player) : Player :=
  set_camera
    (Camera.mk (Camera.position (camera p)) (Camera.up (camera p))
               matrixColumn0 worldDirection) p.

Definition perform (a : Action) (st : State) : State :=
  match a with
  | Key ev => mkState (dispatchKey ev (player st)) (sim st) (previousTime st)
  | Click => onClick st
  | Lock => mkState (set_isLocked true (player st)) (sim st) (previousTime st)
  | Unlock => mkState (set_isLocked false (player st)) (sim st) (previousTime st)
  | Look c0 d => mkState (turnCamera c0 d (player st)) (sim st) (previousTime st)
  | Frame step elapsedTime => tick step elapsedTime st
  end.

Definition performAll (acts : list Action) (st : State) : State :=
  fold_left (fun s a => perform a s) acts st.

(** The same for the entry point without controller, which has no key
    listeners. *)
Definition performBasic (a : Action) (st : State) : State :=
  match a with
  | Key ev => st
  | Click => Basic.onClick st
  | Lock => mkState (set_isLocked true (player st)) (sim st) (previousTime st)
  | Unlock => mkState (set_isLocked false (player st)) (sim st) (previousTime st)
  | Look c0 d => mkState (turnCamera c0 d (player st)) (sim st) (previousTime st)
  | Frame step elapsedTime => Basic.tick step elapsedTime st
  end.

Definition performAllBasic (acts : list Action) (st : State) : State :=
  fold_left (fun s a => performBasic a s) acts st.

(** The physics library moves bodies and keeps their shapes. *)
Definition lawful (a : Action) : Prop :=
  match a with
  | Frame step _ => keeps_shapes step
  | _ => True
  end.

(** The clicks of a run that arrive while the pointer is locked. *)
Fixpoint shotsFired (locked : bool) (acts : list Action) : nat :=
  match acts with
  | [] => 0%nat
  | Click :: rest => ((if locked then 1 else 0) + shotsFired locked rest)%nat
  | Lock :: rest => shotsFired true rest
  | Unlock :: rest => shotsFired false rest
  | _ :: rest => shotsFired locked rest
  end.

(** A physics step that leaves every body where it is. *)
Definition stillStep : WorldStep := fun _ _ _ _ bs => bs.

(** Nobody holds a movement key and the player does not move sideways. *)
Definition idle (p : Player) : Prop :=
  moveForward p = false /\ moveBackward p = false /\
  moveLeft p = false /\ moveRight p = false /\
  Num.is_zero (Vector3.x (velocity p)) = true /\
  Num.is_zero (Vector3.z (velocity p)) = true.

(** What every step of a run keeps true of the player. *)
Definition grounded (p : Player) : Prop :=
  Num.ltb (Vector3.y (Camera.position (camera p))) eyeHeight = false /\
  Num.is_zero (Vector3.y (direction p)) = true /\
  Camera.up (camera p) = Camera.up initialCamera.

(** The key codes the listeners know. *)
Definition movementKey (code : string) : bool :=
  bound Forward code || bound Backward code || bound Left code || bound Right code.

(** * Properties *)

(** ** Arrays *)

Section Arrays.
Context {A : Type} `{EqDecision A}.
Implicit Types (a : A) (l : list A).

Lemma remove_first_absent a l : a ∉ l -> remove_first a l = l.
Proof.
  induction l as [|b l IH]; simpl; intros Hni; [done|].
  apply not_elem_of_cons in Hni as [Hne Hni].
  destruct (decide (a = b)); [done|]. by rewrite IH.
Qed.

Lemma remove_first_subset a b l : b ∈ remove_first a l -> b ∈ l.
Proof.
  induction l as [|c l IH]; simpl; [done|].
  destruct (decide (a = c)); rewrite !elem_of_cons; intuition.
Qed.

Lemma remove_first_nodup a l : NoDup l -> NoDup (remove_first a l).
Proof.
  induction 1 as [|b l Hni Hnd IH]; simpl; [constructor|].
  destruct (decide (a = b)); [done|].
  constructor; [|done]. intros Hin. by apply Hni, (remove_first_subset a).
Qed.

(** Removing an element by value or by its index is the same thing in an
    array without repetition. *)
Lemma remove_first_delete a l i : NoDup l -> l !! i = Some a -> remove_first a l = delete i l.
Proof.
  intros Hnd. revert i. induction Hnd as [|b l Hni Hnd IH]; intros i Hi; [done|].
  destruct i as [|i]; simpl in *.
  - injection Hi as ->. by rewrite decide_True.
  - destruct (decide (a = b)) as [->|Hne].
    + exfalso. apply Hni. by eapply list_elem_of_lookup_2.
    + f_equal. by apply IH.
Qed.

Lemma filter_remove_first (P : A -> bool) a l :
  List.filter P (remove_first a l) = remove_first a (List.filter P l).
Proof.
  induction l as [|b l IH]; simpl; [done|].
  destruct (decide (a = b)) as [->|Hne].
  - destruct (P b) eqn:HP; simpl.
    + by rewrite decide_True.
    + rewrite remove_first_absent; [done|].
      rewrite list_elem_of_In, filter_In. intros [_ ?]. congruence.
  - simpl. destruct (P b); simpl; [|done].
    rewrite decide_False by done. by rewrite IH.
Qed.

Lemma filter_nodup (P : A -> bool) l : NoDup l -> NoDup (List.filter P l).
Proof.
  induction 1 as [|b l Hni Hnd IH]; simpl; [constructor|].
  destruct (P b); [|done]. constructor; [|done].
  rewrite list_elem_of_In, filter_In, <- list_elem_of_In. tauto.
Qed.

Lemma filter_all (P : A -> bool) l :
  (forall a, a ∈ l -> P a = true) -> List.filter P l = l.
Proof.
  induction l as [|b l IH]; simpl; intros Hall; [done|].
  rewrite (Hall b) by apply list_elem_of_here.
  f_equal. apply IH. intros a Ha. apply Hall. by apply list_elem_of_further.
Qed.

End Arrays.

(** ** The frame-sync loop *)

Lemma set_sphereToUpdate_twice l l' s :
  set_sphereToUpdate l (set_sphereToUpdate l' s) = set_sphereToUpdate l s.
Proof. reflexivity. Qed.

Lemma set_sphereToUpdate_same s : set_sphereToUpdate (sphereToUpdate s) s = s.
Proof. by destruct s. Qed.

Lemma updateSphere_visit i e s :
  updateSphere i e s =
  set_sphereToUpdate
    (if outOfBounds (bodies s) e then delete i (sphereToUpdate s) else sphereToUpdate s)
    (visit e s).
Proof. unfold visit, updateSphere. simpl. by destruct (outOfBounds (bodies s) e). Qed.

Lemma visit_set_sphereToUpdate l e s :
  visit e (set_sphereToUpdate l s) = set_sphereToUpdate l (visit e s).
Proof. unfold visit, updateSphere. simpl. by destruct (outOfBounds (bodies s) e). Qed.

Lemma visit_bodies e s : bodies (visit e s) = bodies s.
Proof. unfold visit, updateSphere. simpl. by destruct (outOfBounds (bodies s) e). Qed.

Lemma visit_sphereToUpdate e s : sphereToUpdate (visit e s) = sphereToUpdate s.
Proof. unfold visit, updateSphere. simpl. by destruct (outOfBounds (bodies s) e). Qed.

Lemma visits_set_sphereToUpdate l es s :
  foldr visit (set_sphereToUpdate l s) es = set_sphereToUpdate l (foldr visit s es).
Proof.
  induction es as [|e es IH]; cbn [foldr]; [done|].
  by rewrite IH, visit_set_sphereToUpdate.
Qed.

Lemma visits_bodies es s : bodies (foldr visit s es) = bodies s.
Proof. induction es as [|e es IH]; cbn [foldr]; [done|]. by rewrite visit_bodies. Qed.

(** The loop started below a prefix [pre] of the array reads every index of
    [pre] exactly once, from the last to the first, keeps the entries that
    are not out of bounds, and never looks at the rest. *)
Lemma updateSpheres_from_prefix pre suf s :
  sphereToUpdate s = pre ++ suf ->
  updateSpheres_from (length pre) s =
  set_sphereToUpdate (List.filter (kept (bodies s)) pre ++ suf) (foldr visit s pre).
Proof.
  revert suf s. induction pre as [|e pre IH] using rev_ind; intros suf s Hreg.
  - simpl in *. rewrite <- Hreg. by rewrite set_sphereToUpdate_same.
  - rewrite length_app, Nat.add_comm. simpl.
    assert (Hi : sphereToUpdate s !! length pre = Some e).
    { rewrite Hreg, <- app_assoc. by apply list_lookup_middle. }
    rewrite Hi, updateSphere_visit, foldr_app, List.filter_app.
    cbn [foldr List.filter].
    unfold kept at 2. destruct (outOfBounds (bodies s) e) eqn:Hout; cbn [negb].
    + rewrite (IH suf).
      * cbn [bodies set_sphereToUpdate].
        rewrite visits_set_sphereToUpdate, set_sphereToUpdate_twice.
        by rewrite visit_bodies, app_nil_r.
      * cbn [sphereToUpdate set_sphereToUpdate].
        rewrite Hreg, <- app_assoc. apply delete_middle.
    + rewrite (IH (e :: suf)).
      * cbn [bodies set_sphereToUpdate].
        rewrite visits_set_sphereToUpdate, set_sphereToUpdate_twice.
        by rewrite visit_bodies, <- app_assoc.
      * cbn [sphereToUpdate set_sphereToUpdate].
        by rewrite Hreg, <- app_assoc.
Qed.

(** [updateSpheres] as a filter of the registry and a sweep of visits. *)
Lemma updateSpheres_sweep s :
  updateSpheres s =
  set_sphereToUpdate (List.filter (kept (bodies s)) (sphereToUpdate s))
                     (foldr visit s (sphereToUpdate s)).
Proof.
  unfold updateSpheres.
  rewrite (updateSpheres_from_prefix (sphereToUpdate s) []) by (by rewrite app_nil_r).
  by rewrite app_nil_r.
Qed.

Lemma updateSpheres_bodies s : bodies (updateSpheres s) = bodies s.
Proof. rewrite updateSpheres_sweep. simpl. apply visits_bodies. Qed.

Lemma updateSpheres_sphereToUpdate s :
  sphereToUpdate (updateSpheres s) = List.filter (kept (bodies s)) (sphereToUpdate s).
Proof. by rewrite updateSpheres_sweep. Qed.

(** The sweep writes mesh [h] from the body of its last writer and leaves
    every other field of the mesh alone. *)
Lemma visit_meshes e s h :
  meshes (visit e s) h =
  if kept (bodies s) e && Nat.eqb (mesh e) h
  then Mesh.copy_transform (Body.position (bodies s (body e)))
                           (Body.quaternion (bodies s (body e))) (meshes s h)
  else meshes s h.
Proof.
  unfold visit, updateSphere, kept. simpl.
  destruct (outOfBounds (bodies s) e); simpl; [done|].
  destruct (Nat.eqb_spec (mesh e) h) as [->|Hne].
  - apply fn_lookup_alter.
  - by apply fn_lookup_alter_ne.
Qed.

Lemma visits_meshes l s h :
  meshes (foldr visit s l) h =
  match lastWriter (bodies s) h l with
  | Some e => Mesh.copy_transform (Body.position (bodies s (body e)))
                                  (Body.quaternion (bodies s (body e))) (meshes s h)
  | None => meshes s h
  end.
Proof.
  induction l as [|e l IH]; cbn [foldr]; [done|].
  rewrite visit_meshes, visits_bodies. unfold lastWriter. cbn [List.find].
  destruct (kept (bodies s) e && Nat.eqb (mesh e) h); [|exact IH].
  rewrite IH. fold (lastWriter (bodies s) h l).
  by destruct (lastWriter (bodies s) h l).
Qed.

Lemma lastWriter_filter bs h l :
  lastWriter bs h (List.filter (kept bs) l) = lastWriter bs h l.
Proof.
  unfold lastWriter. induction l as [|e l IH]; simpl; [done|].
  destruct (kept bs e) eqn:Hk; simpl; [|done].
  rewrite Hk. simpl. by destruct (Nat.eqb (mesh e) h).
Qed.

Lemma visit_kept_scene_world e s :
  kept (bodies s) e = true ->
  scene (visit e s) = scene s /\ world (visit e s) = world s.
Proof.
  unfold visit, updateSphere, kept. simpl.
  by destruct (outOfBounds (bodies s) e).
Qed.

(** A sweep over entries that all stay removes nothing. *)
Lemma visits_kept_scene_world l s :
  (forall e, e ∈ l -> kept (bodies s) e = true) ->
  scene (foldr visit s l) = scene s /\ world (foldr visit s l) = world s.
Proof.
  induction l as [|e l IH]; cbn [foldr]; intros Hall; [done|].
  destruct IH as [IHs IHw].
  { intros e' He'. apply Hall. by apply list_elem_of_further. }
  destruct (visit_kept_scene_world e (foldr visit s l)) as [Hs Hw].
  { rewrite visits_bodies. apply Hall, list_elem_of_here. }
  by rewrite Hs, Hw.
Qed.

Lemma kept_filter_elem bs l e : e ∈ List.filter (kept bs) l -> kept bs e = true.
Proof. rewrite list_elem_of_In, filter_In. tauto. Qed.

(** ** Consistency of scene, world and registry *)

Lemma fmap_delete_index {A B : Type} (f : A -> B) (l : list A) i :
  f <$> delete i l = delete i (f <$> l).
Proof.
  revert i. induction l as [|a l IH]; intros [|i]; simpl; try done.
  by rewrite <- IH.
Qed.

Lemma nodup_fmap_elem {A B : Type} (f : A -> B) (l : list A) a b :
  NoDup (f <$> l) -> a ∈ l -> b ∈ l -> f a = f b -> a = b.
Proof.
  induction l as [|c l IH]; [by intros _ ?%elem_of_nil|].
  intros [Hni Hnd]%list.NoDup_cons [->|Ha]%elem_of_cons [->|Hb]%elem_of_cons Heq; try done.
  - exfalso. apply Hni. rewrite Heq. by apply list_elem_of_fmap_2.
  - exfalso. apply Hni. rewrite <- Heq. by apply list_elem_of_fmap_2.
  - by apply IH.
Qed.

Lemma isProjectileMesh_alter p q h ms o :
  isProjectileMesh (alter (Mesh.copy_transform p q) h ms) o = isProjectileMesh ms o.
Proof.
  destruct o as [| | |h']; simpl; try done.
  destruct (decide (h = h')) as [->|Hne].
  - by rewrite fn_lookup_alter.
  - by rewrite fn_lookup_alter_ne.
Qed.

Lemma consistent_meshes_nodup s : consistent s -> NoDup (entryMesh <$> sphereToUpdate s).
Proof.
  intros Hc. rewrite <- (meshes_registered s Hc).
  apply filter_nodup, (scene_nodup s Hc).
Qed.

Lemma consistent_bodies_nodup s : consistent s -> NoDup (body <$> sphereToUpdate s).
Proof.
  intros Hc. rewrite <- (bodies_registered s Hc).
  apply filter_nodup, (world_nodup s Hc).
Qed.

Lemma consistent_entry_in_scene s e :
  consistent s -> e ∈ sphereToUpdate s ->
  entryMesh e ∈ scene s /\ Mesh.is_sphere (meshes s (mesh e)) = true.
Proof.
  intros Hc He.
  assert (Hin : entryMesh e ∈ projectileMeshes s).
  { rewrite (meshes_registered s Hc). by apply list_elem_of_fmap_2. }
  unfold projectileMeshes in Hin.
  rewrite list_elem_of_In, filter_In, <- list_elem_of_In in Hin. exact Hin.
Qed.

Lemma consistent_entry_in_world s e :
  consistent s -> e ∈ sphereToUpdate s ->
  body e ∈ world s /\ Body.is_sphere (bodies s (body e)) = true.
Proof.
  intros Hc He.
  assert (Hin : body e ∈ projectileBodies s).
  { rewrite (bodies_registered s Hc). by apply list_elem_of_fmap_2. }
  unfold projectileBodies in Hin.
  rewrite list_elem_of_In, filter_In, <- list_elem_of_In in Hin. exact Hin.
Qed.

(** One iteration of the loop keeps the three collections in step. *)
Lemma updateSphere_consistent i e s :
  consistent s -> sphereToUpdate s !! i = Some e -> consistent (updateSphere i e s).
Proof.
  intros Hc Hi. pose proof Hc as [Hsn Hwn Hms Hbs Hma Hba].
  unfold updateSphere. destruct (outOfBounds (bodies s) e).
  - constructor; simpl.
    + by apply remove_first_nodup.
    + by apply remove_first_nodup.
    + unfold projectileMeshes, scene_remove. simpl.
      rewrite filter_remove_first. fold (projectileMeshes s). rewrite Hms.
      rewrite fmap_delete_index. apply remove_first_delete.
      * by apply consistent_meshes_nodup.
      * by rewrite list_lookup_fmap, Hi.
    + unfold projectileBodies, world_removeBody. simpl.
      rewrite filter_remove_first. fold (projectileBodies s). rewrite Hbs.
      rewrite fmap_delete_index. apply remove_first_delete.
      * by apply consistent_bodies_nodup.
      * by rewrite list_lookup_fmap, Hi.
    + intros h Hh. apply Hma. by eapply remove_first_subset.
    + intros b Hb. apply Hba. by eapply remove_first_subset.
  - constructor; simpl; try done.
    unfold projectileMeshes. simpl. rewrite <- Hms. unfold projectileMeshes.
    apply filter_ext. intros o. apply isProjectileMesh_alter.
Qed.

Lemma updateSpheres_from_consistent n s :
  consistent s -> consistent (updateSpheres_from n s).
Proof.
  revert s. induction n as [|i IH]; intros s Hc; simpl; [done|].
  destruct (sphereToUpdate s !! i) as [e|] eqn:Hi; [|done].
  by apply IH, updateSphere_consistent.
Qed.

Lemma updateSpheres_consistent s : consistent s -> consistent (updateSpheres s).
Proof. apply updateSpheres_from_consistent. Qed.

Lemma shootSphere_scene cam s :
  consistent s -> scene (shootSphere cam s) = scene s ++ [MeshObj (nextMesh s)].
Proof.
  intros Hc. simpl. unfold scene_add. rewrite remove_first_absent; [done|].
  intros Hin. apply (meshes_allocated s Hc) in Hin. lia.
Qed.

Lemma shootSphere_world cam s :
  consistent s -> world (shootSphere cam s) = world s ++ [nextBody s].
Proof.
  intros Hc. simpl. unfold world_addBody. rewrite decide_False; [done|].
  intros Hin. apply (bodies_allocated s Hc) in Hin. lia.
Qed.

Lemma shootSphere_projectileMeshes cam s :
  consistent s ->
  projectileMeshes (shootSphere cam s) = projectileMeshes s ++ [MeshObj (nextMesh s)].
Proof.
  intros Hc. unfold projectileMeshes. rewrite shootSphere_scene by done.
  rewrite List.filter_app. f_equal.
  - apply filter_ext_in. intros [| | |h] Hin; simpl; try done.
    rewrite fn_lookup_insert_ne; [done|].
    apply list_elem_of_In, (meshes_allocated s Hc) in Hin. lia.
  - simpl. by rewrite fn_lookup_insert.
Qed.

Lemma shootSphere_projectileBodies cam s :
  consistent s ->
  projectileBodies (shootSphere cam s) = projectileBodies s ++ [nextBody s].
Proof.
  intros Hc. unfold projectileBodies. rewrite shootSphere_world by done.
  rewrite List.filter_app. f_equal.
  - apply filter_ext_in. intros b Hin. simpl.
    rewrite fn_lookup_insert_ne; [done|].
    apply list_elem_of_In, (bodies_allocated s Hc) in Hin. lia.
  - simpl. by rewrite fn_lookup_insert.
Qed.

Lemma shootSphere_consistent cam s : consistent s -> consistent (shootSphere cam s).
Proof.
  intros Hc. pose proof Hc as [Hsn Hwn Hms Hbs Hma Hba]. constructor.
  - rewrite shootSphere_scene by done. apply list.NoDup_app. split_and!; [done| |apply list.NoDup_singleton].
    intros o Ho ->%list_elem_of_singleton. apply Hma in Ho. lia.
  - rewrite shootSphere_world by done. apply list.NoDup_app. split_and!; [done| |apply list.NoDup_singleton].
    intros o Ho ->%list_elem_of_singleton. apply Hba in Ho. lia.
  - rewrite shootSphere_projectileMeshes by done. simpl. by rewrite fmap_app, Hms.
  - rewrite shootSphere_projectileBodies by done. simpl. by rewrite fmap_app, Hbs.
  - intros h. rewrite shootSphere_scene by done. simpl.
    rewrite elem_of_app, list_elem_of_singleton. intros [Hh|[= ->]]; [|lia].
    apply Hma in Hh. lia.
  - intros b. rewrite shootSphere_world by done. simpl.
    rewrite elem_of_app, list_elem_of_singleton. intros [Hb| ->]; [|lia].
    apply Hba in Hb. lia.
Qed.

Lemma set_bodies_consistent bs s :
  (forall h, Body.shape (bs h) = Body.shape (bodies s h)) ->
  consistent s -> consistent (set_bodies bs s).
Proof.
  intros Hshape [Hsn Hwn Hms Hbs Hma Hba]. constructor; simpl; try done.
  rewrite <- Hbs. unfold projectileBodies. simpl.
  apply filter_ext. intros b. unfold Body.is_sphere. by rewrite Hshape.
Qed.

Lemma initialSim_consistent : consistent initialSim.
Proof.
  constructor.
  - apply (bool_decide_unpack _). by vm_compute.
  - apply (bool_decide_unpack _). by vm_compute.
  - reflexivity.
  - reflexivity.
  - intros h Hh. vm_compute in Hh. simpl.
    repeat (apply elem_of_cons in Hh as [Hh|Hh]; [try done; injection Hh as ->; lia|]).
    by apply elem_of_nil in Hh.
  - intros b Hb. vm_compute in Hb. simpl.
    repeat (apply elem_of_cons in Hb as [Hb|Hb]; [subst; lia|]).
    by apply elem_of_nil in Hb.
Qed.

Lemma reachable_consistent s : reachable s -> consistent s.
Proof.
  induction 1 as [|cam s _ IH|s _ IH|step fixedDt dt n s Hstep _ IH].
  - apply initialSim_consistent.
  - by apply shootSphere_consistent.
  - by apply updateSpheres_consistent.
  - apply set_bodies_consistent; [|done]. intros h. apply Hstep.
Qed.

(** The click listener and [tick] stay inside [reachable]; the key
    listeners do not touch the simulation at all. *)
Lemma program_reachable st :
  reachable (sim st) ->
  reachable (sim (onClick st)) /\
  (forall step elapsedTime, keeps_shapes step -> reachable (sim (tick step elapsedTime st))).
Proof.
  intros Hr. split.
  - unfold onClick. destruct (isLocked (player st)); [|done].
    by apply reach_shoot.
  - intros step elapsedTime Hstep. cbn [tick sim].
    by apply reach_update, reach_step.
Qed.

(** ** What the sync step does to one entry *)

Lemma updateSpheres_meshes s h :
  meshes (updateSpheres s) h =
  match lastWriter (bodies s) h (sphereToUpdate s) with
  | Some e => Mesh.copy_transform (Body.position (bodies s (body e)))
                                  (Body.quaternion (bodies s (body e))) (meshes s h)
  | None => meshes s h
  end.
Proof. rewrite updateSpheres_sweep. cbn [meshes set_sphereToUpdate]. apply visits_meshes. Qed.

Lemma updateSpheres_is_sphere s h :
  Mesh.is_sphere (meshes (updateSpheres s) h) = Mesh.is_sphere (meshes s h).
Proof.
  rewrite updateSpheres_meshes.
  by destruct (lastWriter (bodies s) h (sphereToUpdate s)).
Qed.

Lemma updateSpheres_registry_subset s e :
  e ∈ sphereToUpdate (updateSpheres s) ->
  e ∈ sphereToUpdate s /\ outOfBounds (bodies s) e = false.
Proof.
  rewrite updateSpheres_sphereToUpdate, !list_elem_of_In, filter_In.
  unfold kept. by rewrite negb_true_iff.
Qed.

Lemma updateSpheres_registry_keeps s e :
  e ∈ sphereToUpdate s -> outOfBounds (bodies s) e = false ->
  e ∈ sphereToUpdate (updateSpheres s).
Proof.
  rewrite updateSpheres_sphereToUpdate, !list_elem_of_In, filter_In.
  unfold kept. intros ? ->. done.
Qed.

(** An entry below the threshold loses its mesh, its body and its place in
    the registry. *)
Lemma updateSpheres_removes s e :
  consistent s -> e ∈ sphereToUpdate s -> outOfBounds (bodies s) e = true ->
  removed (updateSpheres s) e.
Proof.
  intros Hc He Hout.
  pose proof (updateSpheres_consistent s Hc) as Hc'.
  assert (Hgone : e ∉ sphereToUpdate (updateSpheres s)).
  { intros [_ Hk]%updateSpheres_registry_subset. congruence. }
  split_and!; [| |done].
  - intros Hin. apply Hgone.
    assert (Hp : entryMesh e ∈ projectileMeshes (updateSpheres s)).
    { unfold projectileMeshes. rewrite list_elem_of_In, filter_In, <- list_elem_of_In.
      split; [done|]. simpl. rewrite updateSpheres_is_sphere.
      by apply consistent_entry_in_scene. }
    rewrite (meshes_registered _ Hc') in Hp.
    apply list_elem_of_fmap in Hp as (e' & Heq & He').
    replace e with e'; [done|].
    apply (nodup_fmap_elem entryMesh (sphereToUpdate s)); try done.
    + by apply consistent_meshes_nodup.
    + by apply updateSpheres_registry_subset in He' as [? _].
  - intros Hin. apply Hgone.
    assert (Hp : body e ∈ projectileBodies (updateSpheres s)).
    { unfold projectileBodies. rewrite list_elem_of_In, filter_In, <- list_elem_of_In.
      split; [done|]. rewrite updateSpheres_bodies.
      by apply consistent_entry_in_world. }
    rewrite (bodies_registered _ Hc') in Hp.
    apply list_elem_of_fmap in Hp as (e' & Heq & He').
    replace e with e'; [done|].
    apply (nodup_fmap_elem body (sphereToUpdate s)); try done.
    + by apply consistent_bodies_nodup.
    + by apply updateSpheres_registry_subset in He' as [? _].
Qed.

(** Any other entry keeps all three, and its mesh takes the body's
    transform. *)
Lemma updateSpheres_retains s e :
  consistent s -> e ∈ sphereToUpdate s -> outOfBounds (bodies s) e = false ->
  retained (updateSpheres s) e /\ synced (updateSpheres s) e.
Proof.
  intros Hc He Hout.
  pose proof (updateSpheres_consistent s Hc) as Hc'.
  pose proof (updateSpheres_registry_keeps s e He Hout) as He'.
  split.
  - split_and!; [| |done].
    + by apply consistent_entry_in_scene.
    + by apply consistent_entry_in_world.
  - unfold synced. rewrite updateSpheres_meshes, updateSpheres_bodies.
    destruct (lastWriter (bodies s) (mesh e) (sphereToUpdate s)) as [e'|] eqn:Hw.
    + apply find_some in Hw as [Hin [_ Hm%Nat.eqb_eq]%andb_true_iff].
      assert (e' = e) as ->; [|done].
      apply (nodup_fmap_elem entryMesh (sphereToUpdate s)); try done.
      * by apply consistent_meshes_nodup.
      * by apply list_elem_of_In.
      * unfold entryMesh. by rewrite Hm.
    + exfalso. apply list_elem_of_In in He.
      pose proof (find_none _ _ Hw e He) as Hno.
      unfold kept in Hno. by rewrite Hout, Nat.eqb_refl in Hno.
Qed.

Lemma not_removed_retained s e : retained s e -> ~ removed s e.
Proof. intros (_ & _ & Hin) (_ & _ & Hni). by apply Hni. Qed.

Lemma eqb_not_ltb (a b : Num.t) : Num.eqb a b = true -> Num.ltb a b = false.
Proof.
  unfold Num.eqb, Num.ltb, SFeqb, SFltb.
  by destruct (SFcompare a b) as [[]|].
Qed.

Lemma twoSpheres_consistent : consistent twoSpheres.
Proof. apply shootSphere_consistent, shootSphere_consistent, initialSim_consistent. Qed.

Lemma fallenSpheres_consistent : consistent fallenSpheres.
Proof.
  apply set_bodies_consistent; [|apply twoSpheres_consistent].
  intros h. destruct h as [|[|[|h]]]; reflexivity.
Qed.

(** The sync step on the sample: the sphere at [-51] goes, the sphere at
    [-50] stays. *)
Example updateSpheres_fallenSpheres :
  sphereToUpdate (updateSpheres fallenSpheres) = [secondSphere] /\
  scene (updateSpheres fallenSpheres) =
    [AmbientLightObj; DirectionalLightObj; MeshObj 0%nat; CameraObj; MeshObj 2%nat] /\
  world (updateSpheres fallenSpheres) = [0%nat; 2%nat] /\
  Vector3.y (Mesh.position (meshes (updateSpheres fallenSpheres) 2%nat)) = cullThreshold.
Proof. by vm_compute. Qed.

(** ** The claims about the frame-sync step *)

(** C1. For every entry of the registry the sync step processes, the entry
    is removed (mesh out of the scene, body out of the world, entry out of
    the registry) exactly when the body's vertical position is strictly
    below [-50]; an entry whose vertical position equals [-50] is not
    removed; and an entry that is not removed keeps all three and its mesh
    has the position and the orientation of its body. *)
Theorem updateSpheres_culls_below_threshold s e :
  consistent s -> e ∈ sphereToUpdate s ->
  let y := Vector3.y (Body.position (bodies s (body e))) in
  (removed (updateSpheres s) e <-> (y <? cullThreshold)%num = true) /\
  (Num.eqb y cullThreshold = true -> ~ removed (updateSpheres s) e) /\
  (~ removed (updateSpheres s) e ->
   retained (updateSpheres s) e /\ synced (updateSpheres s) e).
Proof.
  intros Hc He y.
  assert (Hy : outOfBounds (bodies s) e = (y <? cullThreshold)%num) by reflexivity.
  destruct (outOfBounds (bodies s) e) eqn:Hout.
  - pose proof (updateSpheres_removes s e Hc He Hout) as Hrem.
    split_and!; [done| |done].
    intros Heq%eqb_not_ltb. congruence.
  - pose proof (updateSpheres_retains s e Hc He Hout) as [Hret Hsync].
    pose proof (not_removed_retained _ _ Hret) as Hnot.
    split_and!; [|done|done].
    split; [done|]. intros ?. congruence.
Qed.

Lemma updateSpheres_culls_below_threshold_witness :
  removed (updateSpheres fallenSpheres) firstSphere /\
  retained (updateSpheres fallenSpheres) secondSphere /\
  synced (updateSpheres fallenSpheres) secondSphere.
Proof.
  split.
  - apply (updateSpheres_culls_below_threshold fallenSpheres firstSphere).
    + apply fallenSpheres_consistent.
    + apply list_elem_of_here.
    + reflexivity.
  - apply (updateSpheres_culls_below_threshold fallenSpheres secondSphere).
    + apply fallenSpheres_consistent.
    + apply list_elem_of_further, list_elem_of_here.
    + apply (updateSpheres_culls_below_threshold fallenSpheres secondSphere).
      * apply fallenSpheres_consistent.
      * apply list_elem_of_further, list_elem_of_here.
      * reflexivity.
Defined.

(** C2. In every state reached from the freshly loaded program by spawns,
    sync steps and physics steps, the projectile meshes in the scene, the
    projectile bodies in the world and the registry entries are equally
    many; a spawn adds one of each; and a sync step takes the mesh, the body
    and the entry of a culled projectile away together, so that the three
    counts agree again. *)
Theorem projectile_counts_agree s :
  reachable s ->
  (length (projectileMeshes s) = length (sphereToUpdate s) /\
   length (projectileBodies s) = length (sphereToUpdate s)) /\
  (forall cam,
     length (projectileMeshes (shootSphere cam s)) = S (length (projectileMeshes s)) /\
     length (projectileBodies (shootSphere cam s)) = S (length (projectileBodies s)) /\
     length (sphereToUpdate (shootSphere cam s)) = S (length (sphereToUpdate s))) /\
  (forall e, e ∈ sphereToUpdate s ->
     removed (updateSpheres s) e \/ retained (updateSpheres s) e) /\
  (length (projectileMeshes (updateSpheres s)) = length (sphereToUpdate (updateSpheres s)) /\
   length (projectileBodies (updateSpheres s)) = length (sphereToUpdate (updateSpheres s))).
Proof.
  intros Hc%reachable_consistent.
  pose proof (updateSpheres_consistent s Hc) as Hc'.
  split_and!.
  - by rewrite (meshes_registered s Hc), length_fmap.
  - by rewrite (bodies_registered s Hc), length_fmap.
  - intros cam. split_and!.
    + rewrite shootSphere_projectileMeshes, length_app by done. simpl. lia.
    + rewrite shootSphere_projectileBodies, length_app by done. simpl. lia.
    + simpl. rewrite length_app. simpl. lia.
  - intros e He. destruct (outOfBounds (bodies s) e) eqn:Hout.
    + left. by apply updateSpheres_removes.
    + right. by apply updateSpheres_retains.
  - by rewrite (meshes_registered _ Hc'), length_fmap.
  - by rewrite (bodies_registered _ Hc'), length_fmap.
Qed.

Lemma projectile_counts_agree_witness :
  length (projectileMeshes twoSpheres) = length (sphereToUpdate twoSpheres) /\
  length (projectileBodies twoSpheres) = length (sphereToUpdate twoSpheres).
Proof.
  apply (projectile_counts_agree twoSpheres).
  apply reach_shoot, reach_shoot, reach_init.
Defined.

(** C9. Running the sync step twice with no physics step in between gives
    what one run gives: the second run changes no mesh, and neither the
    registry, the scene, the world nor any body. *)
Theorem updateSpheres_idempotent s :
  (forall h, meshes (updateSpheres (updateSpheres s)) h = meshes (updateSpheres s) h) /\
  sphereToUpdate (updateSpheres (updateSpheres s)) = sphereToUpdate (updateSpheres s) /\
  scene (updateSpheres (updateSpheres s)) = scene (updateSpheres s) /\
  world (updateSpheres (updateSpheres s)) = world (updateSpheres s) /\
  (forall h, bodies (updateSpheres (updateSpheres s)) h = bodies (updateSpheres s) h).
Proof.
  assert (Hall : forall e, e ∈ sphereToUpdate (updateSpheres s) ->
                           kept (bodies (updateSpheres s)) e = true).
  { intros e. rewrite updateSpheres_sphereToUpdate, updateSpheres_bodies.
    apply kept_filter_elem. }
  split_and!.
  - intros h. rewrite (updateSpheres_meshes (updateSpheres s)).
    rewrite updateSpheres_bodies, updateSpheres_sphereToUpdate, lastWriter_filter.
    rewrite updateSpheres_meshes.
    by destruct (lastWriter (bodies s) h (sphereToUpdate s)).
  - rewrite (updateSpheres_sphereToUpdate (updateSpheres s)).
    by apply filter_all.
  - rewrite (updateSpheres_sweep (updateSpheres s)). cbn [scene set_sphereToUpdate].
    by apply visits_kept_scene_world.
  - rewrite (updateSpheres_sweep (updateSpheres s)). cbn [world set_sphereToUpdate].
    by apply visits_kept_scene_world.
  - intros h. by rewrite updateSpheres_bodies.
Qed.

(** C10. The sync step does not write to any body: after it every body,
    culled or not, has the position, the orientation and the velocity it had
    before. *)
Theorem updateSpheres_leaves_bodies s h :
  bodies (updateSpheres s) h = bodies s h /\
  Body.position (bodies (updateSpheres s) h) = Body.position (bodies s h) /\
  Body.quaternion (bodies (updateSpheres s) h) = Body.quaternion (bodies s h) /\
  Body.velocity (bodies (updateSpheres s) h) = Body.velocity (bodies s h).
Proof. by rewrite updateSpheres_bodies. Qed.

(** ** Input *)

Ltac case_codes c :=
  repeat match goal with
         | |- context [String.eqb c ?k] =>
             destruct (String.eqb_spec c k) as [->|?]; cbn
         end.

(** A key event writes the flag its code is bound to and no other flag. *)
Lemma dispatchKey_flag f ev p :
  flagValue f (dispatchKey ev p) =
  if bound f (eventCode ev) then isKeyDown ev else flagValue f p.
Proof.
  destruct ev as [c|c]; cbn [dispatchKey eventCode isKeyDown];
    unfold handleKeyDown, handleKeyUp, bound.
  - destruct f; case_codes c; try done; by destruct (canJump p).
  - destruct f; case_codes c; done.
Qed.

Lemma dispatchKeys_snoc evs ev p :
  dispatchKeys (evs ++ [ev]) p = dispatchKey ev (dispatchKeys evs p).
Proof. unfold dispatchKeys. by rewrite fold_left_app. Qed.

Lemma mostRecent_snoc f evs ev :
  mostRecent f (evs ++ [ev]) =
  if bound f (eventCode ev) then Some ev else mostRecent f evs.
Proof. unfold mostRecent. by rewrite rev_unit. Qed.

Lemma dispatchKeys_flag f evs p :
  flagValue f (dispatchKeys evs p) =
  match mostRecent f evs with
  | Some ev => isKeyDown ev
  | None => flagValue f p
  end.
Proof.
  induction evs as [|ev evs IH] using rev_ind; [done|].
  rewrite dispatchKeys_snoc, mostRecent_snoc, dispatchKey_flag.
  by destruct (bound f (eventCode ev)).
Qed.

(** C3. After any sequence of key-down and key-up events, a movement flag
    holds what the most recent event for one of its keys wrote: true after a
    key-down, false after a key-up, and its earlier value when the sequence
    has no event for it.  Started from the loaded program, where all flags
    are false, the flag is true exactly when the most recent event for one
    of its keys is a key-down. *)
Theorem keys_last_write_wins f evs :
  (forall p,
     flagValue f (dispatchKeys evs p) =
     match mostRecent f evs with
     | Some ev => isKeyDown ev
     | None => flagValue f p
     end) /\
  (flagValue f (dispatchKeys evs initialPlayer) = true <->
   exists ev, mostRecent f evs = Some ev /\ isKeyDown ev = true).
Proof.
  split; [intros p; apply dispatchKeys_flag|].
  rewrite dispatchKeys_flag. destruct (mostRecent f evs) as [ev|].
  - split; [by exists ev|]. by intros (ev' & [= <-] & Hd).
  - split; [by destruct f|]. by intros (ev' & [=] & _).
Qed.

(** ** Numbers: where NaN can and cannot come from *)

Section Rounding.
Variables prec emax : Z.

Lemma shr_1_nonneg mrs : 0 <= shr_m mrs -> 0 <= shr_m (shr_1 mrs).
Proof. destruct mrs as [[|[p|p|]|p] r t]; simpl; lia. Qed.

Lemma iter_shr_1_nonneg p mrs :
  0 <= shr_m mrs -> 0 <= shr_m (SpecFloat.iter_pos shr_1 p mrs).
Proof.
  revert mrs. induction p as [p IH|p IH|]; intros mrs Hm; simpl.
  - by apply IH, IH, shr_1_nonneg.
  - by apply IH, IH.
  - by apply shr_1_nonneg.
Qed.

Lemma shr_nonneg mrs e n : 0 <= shr_m mrs -> 0 <= shr_m (fst (shr mrs e n)).
Proof.
  intros Hm. destruct n as [|p|p]; simpl; [done| |done].
  by apply iter_shr_1_nonneg.
Qed.

Lemma shr_fexp_nonneg m e l : 0 <= m -> 0 <= shr_m (fst (shr_fexp prec emax m e l)).
Proof.
  intros Hm. unfold shr_fexp. apply shr_nonneg.
  by destruct l as [|[]].
Qed.

Lemma round_nearest_even_nonneg m l : 0 <= m -> 0 <= round_nearest_even m l.
Proof.
  intros Hm. destruct l as [|[]]; simpl; try lia.
  destruct (Z.even m); lia.
Qed.

(** Rounding a non-negative mantissa gives a zero, a finite number or an
    infinity. *)
Lemma binary_round_aux_not_nan sx mx ex lx :
  0 <= mx -> Num.is_nan (binary_round_aux prec emax sx mx ex lx) = false.
Proof.
  intros Hm. unfold binary_round_aux.
  pose proof (shr_fexp_nonneg mx ex lx Hm) as H1.
  destruct (shr_fexp prec emax mx ex lx) as [mrs' e']. simpl in H1.
  pose proof (round_nearest_even_nonneg (shr_m mrs') (loc_of_shr_record mrs') H1) as H2.
  pose proof (shr_fexp_nonneg _ e' loc_Exact H2) as H3.
  destruct (shr_fexp prec emax _ e' loc_Exact) as [mrs'' e'']. simpl in H3.
  destruct (shr_m mrs'') as [|m|m]; [done| |lia].
  by destruct (e'' <=? emax - prec).
Qed.

Lemma binary_normalize_not_nan m e szero :
  Num.is_nan (binary_normalize prec emax m e szero) = false.
Proof.
  destruct m as [|m|m]; simpl; [done| |]; unfold binary_round;
    destruct (shl_align _ _ _) as [mz ez]; by apply binary_round_aux_not_nan.
Qed.

End Rounding.

Lemma mul_not_nan (a b : Num.t) :
  Num.is_finite a = true -> Num.is_finite b = true -> Num.is_nan (a * b)%num = false.
Proof.
  destruct a as [sa|sa| |sa ma ea], b as [sb|sb| |sb mb eb]; try done.
  intros _ _. by apply binary_round_aux_not_nan.
Qed.

(** A finite number minus anything but NaN is not NaN. *)
Lemma sub_not_nan (a b : Num.t) :
  Num.is_finite a = true -> Num.is_nan b = false -> Num.is_nan (a - b)%num = false.
Proof.
  destruct a as [sa|sa| |sa ma ea], b as [sb|sb| |sb mb eb]; try done.
  - intros _ _. by destruct sa, sb.
  - intros _ _. apply binary_normalize_not_nan.
Qed.

(** A finite number times a zero is a zero. *)
Lemma mul_zero_r (a z : Num.t) :
  Num.is_finite a = true -> Num.is_zero z = true -> Num.is_zero (a * z)%num = true.
Proof. by destruct a, z. Qed.


Lemma eqb_refl (a : Num.t) : Num.is_nan a = false -> Num.eqb a a = true.
Proof.
  destruct a as [s|s| |s m e]; try done; intros _; unfold Num.eqb, SFeqb; simpl.
  - by destruct s.
  - rewrite Z.compare_refl, Pos.compare_cont_refl. by destruct s.
Qed.

(** [a === b] holds for identical non-NaN numbers and for two zeros. *)
Lemma eqb_cases (a b : Num.t) :
  Num.eqb a b = true ->
  Num.is_nan a = false /\ (a = b \/ (Num.is_zero a = true /\ Num.is_zero b = true)).
Proof.
  unfold Num.eqb, SFeqb.
  destruct a as [sa|sa| |sa ma ea], b as [sb|sb| |sb mb eb]; simpl;
    try destruct sa; try destruct sb; simpl; try done;
    try (intros _; split; [done|]; first [by left | by right]).
  all: destruct (Z.compare_spec ea eb) as [->| |]; try done.
  all: change (Pos.compare_cont Eq ma mb) with (Pos.compare ma mb).
  all: destruct (Pos.compare_spec ma mb) as [->| |]; try done.
  all: intros _; split; [done|]; by left.
Qed.

Lemma eqb_trans (a b c : Num.t) :
  Num.eqb a b = true -> Num.eqb b c = true -> Num.eqb a c = true.
Proof.
  intros [Ha [->|[Hza Hzb]]]%eqb_cases Hbc; [done|].
  apply eqb_cases in Hbc as [_ [<-|[_ Hzc]]].
  - by destruct a, b.
  - by destruct a, c.
Qed.


Lemma eqb_finite (a b : Num.t) : Num.eqb a b = true -> Num.is_finite a = Num.is_finite b.
Proof.
  intros [_ [->|[Hza Hzb]]]%eqb_cases; [done|]. by destruct a, b.
Qed.

(** Adding or subtracting a zero does not change the number. *)
Lemma add_zero (a z : Num.t) :
  Num.is_nan a = false -> Num.is_zero z = true -> Num.eqb (a + z)%num a = true.
Proof.
  destruct z as [sz| | |]; try done. intros Ha _.
  destruct a as [sa|sa| |sa ma ea]; try done.
  - by destruct sa, sz.
  - by apply eqb_refl.
  - by apply eqb_refl.
Qed.

Lemma sub_zero (a z : Num.t) :
  Num.is_nan a = false -> Num.is_zero z = true -> Num.eqb (a - z)%num a = true.
Proof.
  destruct z as [sz| | |]; try done. intros Ha _.
  destruct a as [sa|sa| |sa ma ea]; try done.
  - by destruct sa, sz.
  - by apply eqb_refl.
  - by apply eqb_refl.
Qed.

(** ** Firing *)

(** C6. A click while the pointer is not locked changes nothing: no body
    and no mesh is created and the registry keeps its size.  The registry
    grows, by one entry, only when the pointer is locked. *)
Theorem click_spawns_only_when_locked st :
  isLocked (player st) = false ->
  onClick st = st /\
  world (sim (onClick st)) = world (sim st) /\
  scene (sim (onClick st)) = scene (sim st) /\
  length (sphereToUpdate (sim (onClick st))) = length (sphereToUpdate (sim st)) /\
  (forall st', isLocked (player st') = true ->
     length (sphereToUpdate (sim (onClick st'))) = S (length (sphereToUpdate (sim st')))).
Proof.
  intros Hu. unfold onClick at 1 2 3 4. rewrite Hu. split_and!; try done.
  intros st' Hl. unfold onClick. rewrite Hl. simpl.
  rewrite length_app. simpl. lia.
Qed.

Lemma click_spawns_only_when_locked_witness : onClick initialState = initialState.
Proof. apply (click_spawns_only_when_locked initialState). reflexivity. Defined.



(** ** Jumping and landing *)

(** A jump from the ground, and a second press in the air. *)
Example jump_once :
  Vector3.y (velocity (handleKeyDown "Space" standingPlayer)) = Num.ofZ 350 /\
  canJump (handleKeyDown "Space" standingPlayer) = false /\
  handleKeyDown "Space" (handleKeyDown "Space" standingPlayer) =
    handleKeyDown "Space" standingPlayer.
Proof. by vm_compute. Qed.

(** C8. A jump key-down adds the impulse [350] to [velocity.y] and clears
    [canJump] when [canJump] is true, and changes nothing when it is false.
    Whenever the controller step has integrated the camera to a height below
    the eye height [10], the step ends with the camera at height [10],
    [velocity.y] at [0] and [canJump] true; so after a step the camera is
    never below the eye height. *)
Theorem jump_and_landing p dt :
  (canJump p = true ->
   Vector3.y (velocity (handleKeyDown "Space" p)) = (Vector3.y (velocity p) + jumpImpulse)%num /\
   Vector3.x (velocity (handleKeyDown "Space" p)) = Vector3.x (velocity p) /\
   Vector3.z (velocity (handleKeyDown "Space" p)) = Vector3.z (velocity p) /\
   canJump (handleKeyDown "Space" p) = false) /\
  (canJump p = false -> handleKeyDown "Space" p = p) /\
  (let fallen := controllerMove dt (controllerDirection dt (controllerDamping dt p)) in
   (Num.ltb (Vector3.y (Camera.position (camera fallen))) eyeHeight = true ->
    Vector3.y (Camera.position (camera (controller dt p))) = eyeHeight /\
    Vector3.y (velocity (controller dt p)) = Num.ofZ 0 /\
    canJump (controller dt p) = true) /\
   (Num.ltb (Vector3.y (Camera.position (camera fallen))) eyeHeight = false ->
    controller dt p = fallen)) /\
  Num.ltb (Vector3.y (Camera.position (camera (controller dt p)))) eyeHeight = false.
Proof.
  split_and!.
  - intros Hj. unfold handleKeyDown. cbn. by rewrite Hj.
  - intros Hj. unfold handleKeyDown. cbn. by rewrite Hj.
  - cbv zeta. unfold controller, groundClamp.
    split; intros ->; done.
  - unfold controller, groundClamp.
    set (fallen := controllerMove dt (controllerDirection dt (controllerDamping dt p))).
    destruct (Num.ltb (Vector3.y (Camera.position (camera fallen))) eyeHeight) eqn:Hlt;
      [reflexivity|exact Hlt].
Qed.

(** ** The controller *)

(** Holding forward and right gives the diagonal of length one; [9.8 * 100]
    is not exactly [980]. *)
Example steering_diagonal :
  steering (set_moveRight true walkingPlayer) =
    Vector3.mk (S754_finite false 6369051672525772 (-53)) (Num.ofZ 0)
               (S754_finite false 6369051672525772 (-53)) /\
  gravity = S754_finite false 8620171161763841 (-43) /\
  Num.eqb gravity (Num.ofZ 980) = false.
Proof. by vm_compute. Qed.

Lemma finite_not_nan (a : Num.t) : Num.is_finite a = true -> Num.is_nan a = false.
Proof. by destruct a. Qed.

Lemma vecFinite_no_nan v : vecFinite v -> vecNoNaN v.
Proof. intros (? & ? & ?). unfold vecNoNaN. split_and!; by apply finite_not_nan. Qed.

Lemma controllerDirection_direction dt p :
  direction (controllerDirection dt p) = steering p.
Proof. reflexivity. Qed.

Lemma controllerDirection_velocity dt p :
  velocity (controllerDirection dt p) =
  let v := velocity p in
  let v :=
    if moveForward p || moveBackward p
    then Vector3.set_z v (Vector3.z v - Vector3.z (steering p) * acceleration * dt)%num
    else v in
  if moveLeft p || moveRight p
  then Vector3.set_x v (Vector3.x v - Vector3.x (steering p) * acceleration * dt)%num
  else v.
Proof. reflexivity. Qed.


(** With [direction.y] at zero the normalized direction is finite, stays
    flat, is zero along an axis whose two keys are both up or both down, and
    its product with the acceleration constant is finite. *)
Lemma steering_cases p :
  Num.is_zero (Vector3.y (direction p)) = true ->
  vecFinite (steering p) /\
  Num.is_zero (Vector3.y (steering p)) = true /\
  Num.is_finite (Vector3.x (steering p) * acceleration)%num = true /\
  Num.is_finite (Vector3.z (steering p) * acceleration)%num = true /\
  (moveForward p = moveBackward p -> Num.is_zero (Vector3.z (steering p)) = true) /\
  (moveRight p = moveLeft p -> Num.is_zero (Vector3.x (steering p)) = true).
Proof.
  destruct p as [f b l r j v [dx dy dz] c k]. unfold steering, vecFinite.
  cbn [direction moveForward moveBackward moveLeft moveRight Vector3.y].
  destruct dy as [s| | |]; try done. intros _.
  destruct s, f, b, l, r; vm_compute; by split_and!.
Qed.

Lemma mul_zero_l (z a : Num.t) :
  Num.is_zero z = true -> Num.is_finite a = true -> Num.is_zero (z * a)%num = true.
Proof. by destruct z, a. Qed.

(** Accelerating along an axis whose direction component is zero leaves the
    velocity component as it was. *)
Lemma accelerate_along_zero (v d dt : Num.t) :
  Num.is_finite v = true -> Num.is_zero d = true -> Num.is_finite dt = true ->
  Num.eqb (v - d * acceleration * dt)%num v = true /\
  Num.is_finite (v - d * acceleration * dt)%num = true.
Proof.
  intros Hv Hd Hdt.
  assert (Heq : Num.eqb (v - d * acceleration * dt)%num v = true).
  { apply sub_zero; [by destruct v|]. apply mul_zero_l; [|done]. by apply mul_zero_l. }
  split; [done|]. by rewrite (eqb_finite _ _ Heq).
Qed.

(** The program never writes [direction.y]: it is zero when the module is
    loaded and normalizing keeps it zero. *)
Lemma direction_stays_flat :
  Num.is_zero (Vector3.y (direction initialPlayer)) = true /\
  (forall ev p, Num.is_zero (Vector3.y (direction p)) = true ->
                Num.is_zero (Vector3.y (direction (dispatchKey ev p))) = true) /\
  (forall dt p, Num.is_zero (Vector3.y (direction p)) = true ->
                Num.is_zero (Vector3.y (direction (controller dt p))) = true).
Proof.
  split_and!; [done| |].
  - intros [c|c] p Hp; cbn [dispatchKey]; unfold handleKeyDown, handleKeyUp;
      case_codes c; try done; by destruct (canJump p).
  - intros dt p Hp.
    destruct (steering_cases (controllerDamping dt p) Hp) as (_ & Hy & _).
    unfold controller, groundClamp.
    destruct (Num.ltb _ eyeHeight); exact Hy.
Qed.

(** C4. Whatever the four flags are, the direction the controller computes
    has no NaN component.  Along an axis on which no key is held or the two
    opposite keys cancel, the direction component is zero, and the velocity
    component stays what it was, finite; when this holds on both axes the
    normalized direction is the zero vector, not NaN.  In every case no NaN
    is written to [velocity.x] or [velocity.z].  The time step and the
    incoming velocity are finite numbers, and [direction.y] is zero, as it
    always is in the program ([direction_stays_flat]). *)
Theorem direction_step_no_nan p dt :
  Num.is_zero (Vector3.y (direction p)) = true ->
  Num.is_finite dt = true ->
  Num.is_finite (Vector3.x (velocity p)) = true ->
  Num.is_finite (Vector3.z (velocity p)) = true ->
  let q := controllerDirection dt p in
  (vecFinite (direction q) /\ vecNoNaN (direction q)) /\
  (moveForward p = moveBackward p ->
   Num.is_zero (Vector3.z (direction q)) = true /\
   Num.eqb (Vector3.z (velocity q)) (Vector3.z (velocity p)) = true /\
   Num.is_finite (Vector3.z (velocity q)) = true) /\
  (moveRight p = moveLeft p ->
   Num.is_zero (Vector3.x (direction q)) = true /\
   Num.eqb (Vector3.x (velocity q)) (Vector3.x (velocity p)) = true /\
   Num.is_finite (Vector3.x (velocity q)) = true) /\
  (moveForward p = moveBackward p -> moveRight p = moveLeft p -> vecZero (direction q)) /\
  Num.is_nan (Vector3.x (velocity q)) = false /\
  Num.is_nan (Vector3.z (velocity q)) = false.
Proof.
  intros Hflat Hdt Hvx Hvz q. subst q.
  destruct (steering_cases p Hflat) as (Hfin & Hy & Hax & Haz & Hzz & Hzx).
  rewrite controllerDirection_direction, controllerDirection_velocity.
  assert (Hz' : Num.is_nan
            (Vector3.z (velocity p) - Vector3.z (steering p) * acceleration * dt)%num = false).
  { apply sub_not_nan; [done|]. by apply mul_not_nan. }
  assert (Hx' : Num.is_nan
            (Vector3.x (velocity p) - Vector3.x (steering p) * acceleration * dt)%num = false).
  { apply sub_not_nan; [done|]. by apply mul_not_nan. }
  cbv zeta. split_and!.
  - done.
  - by apply vecFinite_no_nan.
  - intros Hfb. specialize (Hzz Hfb).
    destruct (accelerate_along_zero _ _ _ Hvz Hzz Hdt) as [Heq Hf].
    pose proof (eqb_refl _ (finite_not_nan _ Hvz)) as Hrefl.
    split; [done|].
    destruct (moveForward p || moveBackward p), (moveLeft p || moveRight p); cbn; done.
  - intros Hrl. specialize (Hzx Hrl).
    destruct (accelerate_along_zero _ _ _ Hvx Hzx Hdt) as [Heq Hf].
    pose proof (eqb_refl _ (finite_not_nan _ Hvx)) as Hrefl.
    split; [done|].
    destruct (moveForward p || moveBackward p), (moveLeft p || moveRight p); cbn; done.
  - intros Hfb Hrl. unfold vecZero. split_and!; [by apply Hzx|done|by apply Hzz].
  - destruct (moveForward p || moveBackward p), (moveLeft p || moveRight p); cbn;
      first [exact Hx' | by apply finite_not_nan].
  - destruct (moveForward p || moveBackward p), (moveLeft p || moveRight p); cbn;
      first [exact Hz' | by apply finite_not_nan].
Qed.

Lemma direction_step_no_nan_witness :
  vecNoNaN (direction (controllerDirection frameTime walkingPlayer)) /\
  Num.is_finite (Vector3.x (velocity (controllerDirection frameTime walkingPlayer))) = true /\
  Num.is_nan (Vector3.z (velocity (controllerDirection frameTime walkingPlayer))) = false.
Proof.
  destruct (direction_step_no_nan walkingPlayer frameTime)
    as ((_ & Hd) & _ & Hx & _ & _ & Hz).
  - reflexivity.
  - reflexivity.
  - reflexivity.
  - reflexivity.
  - split_and!; [exact Hd| |exact Hz]. by apply Hx.
Defined.

(** On an axis with a key held the velocity is not NaN but can leave the
    finite range when the time step is astronomically large: with the
    forward key held, a velocity of zero and the time step [2^1016], the
    step writes [-Infinity] to [velocity.z]. *)
Remark direction_step_overflow :
  valid_binary Num.prec Num.emax hugeTime = true /\
  Num.is_finite hugeTime = true /\
  vecFinite (velocity walkingPlayer) /\
  Vector3.z (velocity (controllerDirection hugeTime walkingPlayer)) = S754_infinity true.
Proof. vm_compute. by split_and!. Qed.

(** *** A step with no elapsed time *)

Lemma vecSame_trans a b c : vecSame a b -> vecSame b c -> vecSame a c.
Proof.
  intros (? & ? & ?) (? & ? & ?). unfold vecSame. split_and!; by eapply eqb_trans.
Qed.

Lemma vecSame_no_nan a b : vecSame a b -> vecNoNaN a.
Proof.
  intros (Hx & Hy & Hz). unfold vecNoNaN.
  split_and!; [apply eqb_cases in Hx|apply eqb_cases in Hy|apply eqb_cases in Hz]; tauto.
Qed.


(** Moving by a zero distance along a finite axis. *)
Lemma addScaledVector_zero a v s :
  vecNoNaN a -> vecFinite v -> Num.is_zero s = true ->
  vecSame (Vector3.addScaledVector a v s) a.
Proof.
  intros (? & ? & ?) (? & ? & ?) Hs. unfold vecSame. cbn.
  split_and!; apply add_zero; try done; by apply mul_zero_r.
Qed.








(** * Further properties of the code *)

(** ** The frame-sync step *)

Lemma remove_first_keeps {A : Type} `{EqDecision A} (a b : A) (l : list A) :
  a <> b -> b ∈ l -> b ∈ remove_first a l.
Proof.
  intros Hne. induction l as [|c l IH]; simpl; [done|].
  destruct (decide (a = c)) as [->|]; rewrite !elem_of_cons; intuition congruence.
Qed.

Lemma visit_scene e s :
  scene (visit e s) =
  if outOfBounds (bodies s) e then scene_remove (entryMesh e) (scene s) else scene s.
Proof. unfold visit, updateSphere. simpl. by destruct (outOfBounds (bodies s) e). Qed.

Lemma visit_world e s :
  world (visit e s) =
  if outOfBounds (bodies s) e then world_removeBody (body e) (world s) else world s.
Proof. unfold visit, updateSphere. simpl. by destruct (outOfBounds (bodies s) e). Qed.

Lemma visit_counters e s :
  nextMesh (visit e s) = nextMesh s /\ nextBody (visit e s) = nextBody s.
Proof. unfold visit, updateSphere. simpl. by destruct (outOfBounds (bodies s) e). Qed.

Lemma visits_counters l s :
  nextMesh (foldr visit s l) = nextMesh s /\ nextBody (foldr visit s l) = nextBody s.
Proof.
  induction l as [|e l [IHm IHb]]; cbn [foldr]; [done|].
  destruct (visit_counters e (foldr visit s l)) as [-> ->]. done.
Qed.

Lemma visits_scene_subset l s o : o ∈ scene (foldr visit s l) -> o ∈ scene s.
Proof.
  induction l as [|e l IH]; cbn [foldr]; [done|].
  rewrite visit_scene. destruct (outOfBounds _ e); [|done].
  intros Ho. by apply IH, (remove_first_subset (entryMesh e)).
Qed.

Lemma visits_world_subset l s b : b ∈ world (foldr visit s l) -> b ∈ world s.
Proof.
  induction l as [|e l IH]; cbn [foldr]; [done|].
  rewrite visit_world. destruct (outOfBounds _ e); [|done].
  intros Hb. by apply IH, (remove_first_subset (body e)).
Qed.

Lemma visits_scene_keeps l s o :
  o ∈ scene s ->
  (forall e, e ∈ l -> outOfBounds (bodies s) e = true -> entryMesh e <> o) ->
  o ∈ scene (foldr visit s l).
Proof.
  intros Ho. induction l as [|e l IH]; cbn [foldr]; intros Hl; [done|].
  assert (Hin : o ∈ scene (foldr visit s l)).
  { apply IH. intros e' He'. apply Hl. by apply list_elem_of_further. }
  rewrite visit_scene, visits_bodies.
  destruct (outOfBounds (bodies s) e) eqn:Hout; [|done].
  apply remove_first_keeps; [|done]. apply Hl; [apply list_elem_of_here|done].
Qed.

Lemma visits_world_keeps l s b :
  b ∈ world s ->
  (forall e, e ∈ l -> outOfBounds (bodies s) e = true -> body e <> b) ->
  b ∈ world (foldr visit s l).
Proof.
  intros Hb. induction l as [|e l IH]; cbn [foldr]; intros Hl; [done|].
  assert (Hin : b ∈ world (foldr visit s l)).
  { apply IH. intros e' He'. apply Hl. by apply list_elem_of_further. }
  rewrite visit_world, visits_bodies.
  destruct (outOfBounds (bodies s) e) eqn:Hout; [|done].
  apply remove_first_keeps; [|done]. apply Hl; [apply list_elem_of_here|done].
Qed.

(** X1. The backwards loop with [splice] examines every entry exactly once:
    the registry after the sync step is the registry before it without the
    entries whose body is below [-50], in the same order, and none of the
    entries left is below [-50]. *)
Theorem updateSpheres_registry_filter s :
  sphereToUpdate (updateSpheres s) = List.filter (kept (bodies s)) (sphereToUpdate s) /\
  (forall e, e ∈ sphereToUpdate (updateSpheres s) <->
             e ∈ sphereToUpdate s /\ outOfBounds (bodies s) e = false) /\
  (forall e, e ∈ sphereToUpdate (updateSpheres s) ->
             outOfBounds (bodies (updateSpheres s)) e = false) /\
  (length (sphereToUpdate (updateSpheres s)) <= length (sphereToUpdate s))%nat.
Proof.
  split_and!.
  - apply updateSpheres_sphereToUpdate.
  - intros e. split.
    + apply updateSpheres_registry_subset.
    + intros [He Hout]. by apply updateSpheres_registry_keeps.
  - intros e [_ Hout]%updateSpheres_registry_subset. by rewrite updateSpheres_bodies.
  - rewrite updateSpheres_sphereToUpdate. apply filter_length_le.
Qed.

(** X2. The sync step takes out of the scene and out of the world nothing
    but the meshes and the bodies of the entries it culls: every other
    object, such as the camera, the lights and the ground plane, stays.  It
    adds nothing and creates nothing. *)
Theorem updateSpheres_only_removes_culled s :
  (forall o, o ∈ scene s ->
     (forall e, e ∈ sphereToUpdate s -> outOfBounds (bodies s) e = true -> entryMesh e <> o) ->
     o ∈ scene (updateSpheres s)) /\
  (forall b, b ∈ world s ->
     (forall e, e ∈ sphereToUpdate s -> outOfBounds (bodies s) e = true -> body e <> b) ->
     b ∈ world (updateSpheres s)) /\
  (forall o, o ∈ scene (updateSpheres s) -> o ∈ scene s) /\
  (forall b, b ∈ world (updateSpheres s) -> b ∈ world s) /\
  nextMesh (updateSpheres s) = nextMesh s /\
  nextBody (updateSpheres s) = nextBody s.
Proof.
  rewrite updateSpheres_sweep. cbn [scene world nextMesh nextBody set_sphereToUpdate].
  split_and!.
  - intros o Ho Hl. by apply visits_scene_keeps.
  - intros b Hb Hl. by apply visits_world_keeps.
  - intros o. apply visits_scene_subset.
  - intros b. apply visits_world_subset.
  - apply visits_counters.
  - apply visits_counters.
Qed.

(** X3. The sync step writes only the position and the orientation of
    meshes, and only of meshes that a surviving entry draws: the geometry
    and the shadow flags of every mesh are kept, and a mesh no surviving
    entry points to is left as it is. *)
Theorem updateSpheres_mesh_frame s :
  (forall h,
     (forall e, e ∈ sphereToUpdate s -> outOfBounds (bodies s) e = false -> mesh e <> h) ->
     meshes (updateSpheres s) h = meshes s h) /\
  (forall h,
     Mesh.geometry (meshes (updateSpheres s) h) = Mesh.geometry (meshes s h) /\
     Mesh.castShadow (meshes (updateSpheres s) h) = Mesh.castShadow (meshes s h) /\
     Mesh.receiveShadow (meshes (updateSpheres s) h) = Mesh.receiveShadow (meshes s h)).
Proof.
  split.
  - intros h Hh. rewrite updateSpheres_meshes.
    destruct (lastWriter (bodies s) h (sphereToUpdate s)) as [e|] eqn:Hw; [|done].
    apply find_some in Hw as [Hin [Hk Hm%Nat.eqb_eq]%andb_true_iff].
    exfalso. apply (Hh e); [by apply list_elem_of_In| |done].
    unfold kept in Hk. by apply negb_true_iff in Hk.
  - intros h. rewrite updateSpheres_meshes.
    by destruct (lastWriter (bodies s) h (sphereToUpdate s)).
Qed.

(** X4. When no registered body is below [-50] the sync step removes
    nothing: the registry, the scene and the world are what they were. *)
Theorem updateSpheres_nothing_to_cull s :
  (forall e, e ∈ sphereToUpdate s -> outOfBounds (bodies s) e = false) ->
  sphereToUpdate (updateSpheres s) = sphereToUpdate s /\
  scene (updateSpheres s) = scene s /\
  world (updateSpheres s) = world s.
Proof.
  intros Hall.
  assert (Hk : forall e, e ∈ sphereToUpdate s -> kept (bodies s) e = true).
  { intros e He. unfold kept. by rewrite (Hall e He). }
  rewrite updateSpheres_sweep. cbn [sphereToUpdate scene world set_sphereToUpdate].
  split_and!.
  - by apply filter_all.
  - by apply visits_kept_scene_world.
  - by apply visits_kept_scene_world.
Qed.

Lemma twoSpheres_in_bounds e :
  e ∈ sphereToUpdate twoSpheres -> outOfBounds (bodies twoSpheres) e = false.
Proof.
  intros He. vm_compute in He.
  repeat (apply elem_of_cons in He as [->|He]; [reflexivity|]).
  by apply elem_of_nil in He.
Qed.

Lemma updateSpheres_nothing_to_cull_witness :
  sphereToUpdate (updateSpheres twoSpheres) = sphereToUpdate twoSpheres /\
  scene (updateSpheres twoSpheres) = scene twoSpheres /\
  world (updateSpheres twoSpheres) = world twoSpheres.
Proof.
  apply (updateSpheres_nothing_to_cull twoSpheres).
  intros e He. vm_compute in He.
  repeat (apply elem_of_cons in He as [->|He]; [reflexivity|]).
  by apply elem_of_nil in He.
Defined.

(** ** Frames *)

(** After a sync step of a consistent state every entry that is left has
    its mesh in the scene, its body in the world, its mesh at its body's
    transform, and its body not below the threshold. *)
Lemma updateSpheres_survivors s e :
  consistent s -> e ∈ sphereToUpdate (updateSpheres s) ->
  retained (updateSpheres s) e /\ synced (updateSpheres s) e /\
  outOfBounds (bodies (updateSpheres s)) e = false.
Proof.
  intros Hc [He Hout]%updateSpheres_registry_subset.
  destruct (updateSpheres_retains s e Hc He Hout) as [Hr Hs].
  split_and!; [done|done|]. by rewrite updateSpheres_bodies.
Qed.

(** X5. Whatever the physics library does to the bodies in [world.step], as
    long as it keeps their shapes, a frame keeps scene, world and registry
    consistent, and when it ends every registered projectile has its mesh in
    the scene and its body in the world, is drawn at its body's position and
    orientation, and is not below [-50]. *)
Theorem tick_frame_invariant step elapsedTime st :
  keeps_shapes step -> consistent (sim st) ->
  consistent (sim (tick step elapsedTime st)) /\
  (forall e, e ∈ sphereToUpdate (sim (tick step elapsedTime st)) ->
     retained (sim (tick step elapsedTime st)) e /\
     synced (sim (tick step elapsedTime st)) e /\
     outOfBounds (bodies (sim (tick step elapsedTime st))) e = false).
Proof.
  intros Hstep Hc. cbn [tick sim].
  set (s1 := set_bodies _ (sim st)).
  assert (Hc1 : consistent s1).
  { apply set_bodies_consistent; [|done]. intros h. apply Hstep. }
  split; [by apply updateSpheres_consistent|].
  intros e He. by apply updateSpheres_survivors.
Qed.

Lemma tick_frame_invariant_witness :
  consistent (sim (tick stillStep frameTime (mkState initialPlayer fallenSpheres (Num.ofZ 0)))) /\
  synced (sim (tick stillStep frameTime (mkState initialPlayer fallenSpheres (Num.ofZ 0))))
         secondSphere.
Proof.
  destruct (tick_frame_invariant stillStep frameTime
              (mkState initialPlayer fallenSpheres (Num.ofZ 0))) as [Hc Hall].
  - intros fixedDt dt n w bs h. reflexivity.
  - apply fallenSpheres_consistent.
  - split; [exact Hc|]. apply Hall. vm_compute. apply list_elem_of_here.
Defined.

Lemma sub_diag (t : Num.t) : Num.is_finite t = true -> (t - t)%num = Num.ofZ 0.
Proof.
  destruct t as [s|s| |s m e]; try done; intros _.
  - by destruct s.
  - unfold Num.sub, SFsub. rewrite Z.sub_diag. reflexivity.
Qed.

Lemma controller_isLocked dt p : isLocked (controller dt p) = isLocked p.
Proof.
  unfold controller, groundClamp.
  by destruct (Num.ltb _ eyeHeight).
Qed.

(** X6. [tick] measures time from the clock reading of the previous frame:
    a second frame at the same (finite) reading hands a time step of [+0] to
    [world.step] and to the controller, and the pointer lock is as the first
    frame found it. *)
Theorem tick_same_clock step step' t st :
  Num.is_finite t = true ->
  let st1 := tick step t st in
  previousTime st1 = t /\
  isLocked (player st1) = isLocked (player st) /\
  tick step' t st1 =
    mkState
      (if isLocked (player st) then controller (Num.ofZ 0) (player st1) else player st1)
      (updateSpheres
         (set_bodies (step' (Num.ofZ 1 / Num.ofZ 60)%num (Num.ofZ 0) 3%nat
                        (world (sim st1)) (bodies (sim st1))) (sim st1)))
      t.
Proof.
  intros Ht st1.
  assert (Hl : isLocked (player st1) = isLocked (player st)).
  { unfold st1. cbn [tick player]. destruct (isLocked (player st)) eqn:Hlock; [|done].
    by rewrite controller_isLocked. }
  split_and!; [done|done|].
  unfold tick at 1. change (previousTime st1) with t.
  rewrite (sub_diag t Ht), Hl. reflexivity.
Qed.

Lemma tick_same_clock_witness :
  previousTime (tick stillStep frameTime initialState) = frameTime /\
  player (tick stillStep frameTime (tick stillStep frameTime initialState)) = initialPlayer.
Proof.
  destruct (tick_same_clock stillStep stillStep frameTime initialState) as (Hp & _ & Ht).
  - reflexivity.
  - split; [exact Hp|]. rewrite Ht. reflexivity.
Defined.

(** ** The entry point without controller *)

Lemma syncSphere_fields e s :
  scene (Basic.syncSphere e s) = scene s /\
  world (Basic.syncSphere e s) = world s /\
  bodies (Basic.syncSphere e s) = bodies s /\
  sphereToUpdate (Basic.syncSphere e s) = sphereToUpdate s /\
  nextMesh (Basic.syncSphere e s) = nextMesh s /\
  nextBody (Basic.syncSphere e s) = nextBody s.
Proof. done. Qed.

Lemma syncSpheres_list_fields l s :
  let s' := fold_left (fun acc sphere => Basic.syncSphere sphere acc) l s in
  scene s' = scene s /\ world s' = world s /\ bodies s' = bodies s /\
  sphereToUpdate s' = sphereToUpdate s /\
  nextMesh s' = nextMesh s /\ nextBody s' = nextBody s.
Proof.
  revert s. induction l as [|e l IH]; intros s; [done|].
  cbn [fold_left]. by destruct (IH (Basic.syncSphere e s)) as (-> & -> & -> & -> & -> & ->).
Qed.

(** The forward loop writes mesh [h] last from the last entry that draws
    it. *)
Lemma syncSpheres_list_meshes l s h :
  meshes (fold_left (fun acc sphere => Basic.syncSphere sphere acc) l s) h =
  match List.find (fun e => Nat.eqb (mesh e) h) (rev l) with
  | Some e => Mesh.copy_transform (Body.position (bodies s (body e)))
                                  (Body.quaternion (bodies s (body e))) (meshes s h)
  | None => meshes s h
  end.
Proof.
  induction l as [|e l IH] using rev_ind; [done|].
  rewrite fold_left_app, rev_unit. cbn [fold_left List.find Basic.syncSphere meshes].
  destruct (syncSpheres_list_fields l s) as (_ & _ & -> & _).
  destruct (Nat.eqb_spec (mesh e) h) as [->|Hne].
  - rewrite fn_lookup_alter, IH.
    by destruct (List.find _ (rev l)).
  - by rewrite fn_lookup_alter_ne.
Qed.

(** X7. The sync loop of the entry point without controller removes
    nothing and touches no body: scene, world, registry and bodies are what
    they were, and only mesh transforms are written.  In a consistent state
    every registered mesh ends at its body's position and orientation. *)
Theorem syncSpheres_copies_only s :
  (scene (Basic.syncSpheres s) = scene s /\
   world (Basic.syncSpheres s) = world s /\
   sphereToUpdate (Basic.syncSpheres s) = sphereToUpdate s /\
   (forall h, bodies (Basic.syncSpheres s) h = bodies s h) /\
   (forall h, Mesh.geometry (meshes (Basic.syncSpheres s) h) = Mesh.geometry (meshes s h))) /\
  (consistent s ->
   forall e, e ∈ sphereToUpdate s -> synced (Basic.syncSpheres s) e).
Proof.
  unfold Basic.syncSpheres.
  destruct (syncSpheres_list_fields (sphereToUpdate s) s) as (Hs & Hw & Hb & Hr & _).
  split.
  - split_and!; try done.
    + intros h. by rewrite Hb.
    + intros h. rewrite syncSpheres_list_meshes. by destruct (List.find _ _).
  - intros Hc e He. unfold synced. rewrite syncSpheres_list_meshes, Hb.
    destruct (List.find _ (rev (sphereToUpdate s))) as [e'|] eqn:Hf.
    + apply find_some in Hf as [Hin Hm%Nat.eqb_eq].
      assert (e' = e) as ->; [|done].
      apply (nodup_fmap_elem entryMesh (sphereToUpdate s)); try done.
      * by apply consistent_meshes_nodup.
      * by apply list_elem_of_In, in_rev.
      * unfold entryMesh. by rewrite Hm.
    + exfalso. apply list_elem_of_In, in_rev in He.
      pose proof (find_none _ _ Hf e He) as Hno. simpl in Hno.
      by rewrite Nat.eqb_refl in Hno.
Qed.

Lemma syncSpheres_copies_only_witness :
  synced (Basic.syncSpheres fallenSpheres) firstSphere /\
  sphereToUpdate (Basic.syncSpheres fallenSpheres) = [firstSphere; secondSphere].
Proof.
  destruct (syncSpheres_copies_only fallenSpheres) as [(_ & _ & Hr & _) Hsync].
  split.
  - apply Hsync; [apply fallenSpheres_consistent|apply list_elem_of_here].
  - rewrite Hr. reflexivity.
Defined.

(** X8. As long as no registered body is below [-50], the sync steps of the
    two entry points do the same to a consistent state: the same scene,
    world, registry and bodies, and the same mesh at every handle. *)
Theorem sync_steps_agree s :
  consistent s ->
  (forall e, e ∈ sphereToUpdate s -> outOfBounds (bodies s) e = false) ->
  scene (updateSpheres s) = scene (Basic.syncSpheres s) /\
  world (updateSpheres s) = world (Basic.syncSpheres s) /\
  sphereToUpdate (updateSpheres s) = sphereToUpdate (Basic.syncSpheres s) /\
  (forall h, bodies (updateSpheres s) h = bodies (Basic.syncSpheres s) h) /\
  (forall h, meshes (updateSpheres s) h = meshes (Basic.syncSpheres s) h).
Proof.
  intros Hc Hall.
  assert (Hk : forall e, e ∈ sphereToUpdate s -> kept (bodies s) e = true).
  { intros e He. unfold kept. by rewrite (Hall e He). }
  unfold Basic.syncSpheres.
  destruct (syncSpheres_list_fields (sphereToUpdate s) s) as (-> & -> & Hb & -> & _).
  rewrite updateSpheres_sweep. cbn [sphereToUpdate scene world bodies meshes set_sphereToUpdate].
  split_and!.
  - by apply visits_kept_scene_world.
  - by apply visits_kept_scene_world.
  - by apply filter_all.
  - intros h. by rewrite visits_bodies, Hb.
  - intros h. rewrite visits_meshes, syncSpheres_list_meshes.
    destruct (lastWriter (bodies s) h (sphereToUpdate s)) as [e|] eqn:Hw;
      destruct (List.find _ (rev (sphereToUpdate s))) as [e'|] eqn:Hf; try done.
    + apply find_some in Hw as [Hin [_ Hm%Nat.eqb_eq]%andb_true_iff].
      apply find_some in Hf as [Hin' Hm'%Nat.eqb_eq].
      assert (e' = e) as ->; [|done].
      apply (nodup_fmap_elem entryMesh (sphereToUpdate s)).
      * by apply consistent_meshes_nodup.
      * by apply list_elem_of_In, in_rev.
      * by apply list_elem_of_In.
      * unfold entryMesh. by rewrite Hm, Hm'.
    + exfalso. apply find_some in Hw as [Hin [_ Hm]%andb_true_iff].
      apply in_rev in Hin. pose proof (find_none _ _ Hf e Hin) as Hno. simpl in Hno.
      congruence.
    + exfalso. apply find_some in Hf as [Hin Hm].
      apply in_rev in Hin. pose proof (find_none _ _ Hw e' Hin) as Hno. simpl in Hno.
      rewrite Hk, Hm in Hno by (by apply list_elem_of_In). done.
Qed.

Lemma sync_steps_agree_witness :
  sphereToUpdate (updateSpheres twoSpheres) = sphereToUpdate (Basic.syncSpheres twoSpheres) /\
  meshes (updateSpheres twoSpheres) 1%nat = meshes (Basic.syncSpheres twoSpheres) 1%nat.
Proof.
  destruct (sync_steps_agree twoSpheres) as (_ & _ & Hr & _ & Hm).
  - apply twoSpheres_consistent.
  - intros e He. vm_compute in He.
    repeat (apply elem_of_cons in He as [->|He]; [reflexivity|]).
    by apply elem_of_nil in He.
  - split; [exact Hr|apply Hm].
Defined.

(** ** The spawner *)

Lemma add_not_nan (a b : Num.t) :
  Num.is_finite a = true -> Num.is_nan b = false -> Num.is_nan (a + b)%num = false.
Proof.
  destruct a as [sa|sa| |sa ma ea], b as [sb|sb| |sb mb eb]; try done.
  - intros _ _. by destruct sa, sb.
  - intros _ _. apply binary_normalize_not_nan.
Qed.

Lemma consistent_registry_allocated s e :
  consistent s -> e ∈ sphereToUpdate s ->
  (mesh e < nextMesh s)%nat /\ (body e < nextBody s)%nat.
Proof.
  intros Hc He. split.
  - apply (meshes_allocated s Hc). by apply consistent_entry_in_scene.
  - apply (bodies_allocated s Hc). by apply consistent_entry_in_world.
Qed.

(** X9. In a consistent state [shootSphere] creates a mesh and a body that
    nothing referred to before, appends them to the scene, the world and the
    registry, and leaves every mesh, body and entry that existed as it
    was. *)
Theorem shootSphere_allocates cam s :
  consistent s ->
  let m := nextMesh s in
  let b := nextBody s in
  ((MeshObj m ∉ scene s) /\ (b ∉ world s) /\
   (forall e, e ∈ sphereToUpdate s -> mesh e <> m /\ body e <> b)) /\
  (scene (shootSphere cam s) = scene s ++ [MeshObj m] /\
   world (shootSphere cam s) = world s ++ [b] /\
   sphereToUpdate (shootSphere cam s) = sphereToUpdate s ++ [mkEntry m b]) /\
  ((forall h, h <> m -> meshes (shootSphere cam s) h = meshes s h) /\
   (forall h, h <> b -> bodies (shootSphere cam s) h = bodies s h) /\
   (forall e, e ∈ sphereToUpdate s ->
      meshes (shootSphere cam s) (mesh e) = meshes s (mesh e) /\
      bodies (shootSphere cam s) (body e) = bodies s (body e))).
Proof.
  intros Hc m b.
  assert (Hold : forall e, e ∈ sphereToUpdate s -> mesh e <> m /\ body e <> b).
  { intros e He. destruct (consistent_registry_allocated s e Hc He). subst m b. lia. }
  split_and!.
  - intros Hin%(meshes_allocated s Hc). subst m. lia.
  - intros Hin%(bodies_allocated s Hc). subst b. lia.
  - exact Hold.
  - by apply shootSphere_scene.
  - by apply shootSphere_world.
  - reflexivity.
  - intros h Hh. cbn [shootSphere meshes]. by rewrite fn_lookup_insert_ne.
  - intros h Hh. cbn [shootSphere bodies]. by rewrite fn_lookup_insert_ne.
  - intros e He. destruct (Hold e He) as [Hm Hb]. cbn [shootSphere meshes bodies].
    by rewrite !fn_lookup_insert_ne.
Qed.

Lemma shootSphere_allocates_witness :
  scene (shootSphere initialCamera initialSim) = scene initialSim ++ [MeshObj 1%nat] /\
  world (shootSphere initialCamera initialSim) = world initialSim ++ [1%nat].
Proof.
  destruct (shootSphere_allocates initialCamera initialSim) as (_ & (Hs & Hw & _) & _).
  - apply initialSim_consistent.
  - split; [exact Hs|exact Hw].
Defined.

(** X10. The new mesh is created at the origin, not at the body: it is the
    next sync step that moves it.  If the spawn point, one unit in front of
    the camera, is not below [-50], the sync step keeps the new projectile
    and puts its mesh at the spawn point; if it is below, the sync step
    removes the projectile at once. *)
Theorem shootSphere_then_sync cam s :
  consistent s ->
  let e := mkEntry (nextMesh s) (nextBody s) in
  let spawn := Vector3.add (Camera.position cam)
                 (Vector3.multiplyScalar (Camera.worldDirection cam) (Num.ofZ 1)) in
  Mesh.position (meshes (shootSphere cam s) (mesh e)) = Vector3.zero /\
  Body.position (bodies (shootSphere cam s) (body e)) = spawn /\
  (Num.ltb (Vector3.y spawn) cullThreshold = false ->
   retained (updateSpheres (shootSphere cam s)) e /\
   Mesh.position (meshes (updateSpheres (shootSphere cam s)) (mesh e)) = spawn) /\
  (Num.ltb (Vector3.y spawn) cullThreshold = true ->
   removed (updateSpheres (shootSphere cam s)) e).
Proof.
  intros Hc e spawn.
  pose proof (shootSphere_consistent cam s Hc) as Hc'.
  assert (He : e ∈ sphereToUpdate (shootSphere cam s)).
  { cbn [shootSphere sphereToUpdate]. apply elem_of_app. right. apply list_elem_of_here. }
  assert (Hb : Body.position (bodies (shootSphere cam s) (body e)) = spawn).
  { cbn [shootSphere bodies body e]. rewrite fn_lookup_insert. reflexivity. }
  assert (Hy : outOfBounds (bodies (shootSphere cam s)) e =
               Num.ltb (Vector3.y spawn) cullThreshold).
  { unfold outOfBounds. by rewrite Hb. }
  split_and!.
  - cbn [shootSphere meshes mesh e]. by rewrite fn_lookup_insert.
  - exact Hb.
  - intros Hin. rewrite <- Hy in Hin.
    destruct (updateSpheres_retains _ e Hc' He Hin) as [Hr [Hp _]].
    split; [done|]. by rewrite Hp, updateSpheres_bodies.
  - intros Hout. rewrite <- Hy in Hout. by apply updateSpheres_removes.
Qed.

Lemma shootSphere_then_sync_witness :
  Mesh.position (meshes (shootSphere initialCamera initialSim) 1%nat) = Vector3.zero /\
  Mesh.position (meshes (updateSpheres (shootSphere initialCamera initialSim)) 1%nat) =
    Vector3.mk (Num.ofZ 0) (Num.ofZ 10) (Num.ofZ (-1)).
Proof.
  destruct (shootSphere_then_sync initialCamera initialSim) as (Hm & _ & Hk & _).
  - apply initialSim_consistent.
  - split; [exact Hm|].
    destruct Hk as [_ Hp]; [reflexivity|].
    etransitivity; [exact Hp|reflexivity].
Defined.

(** X11. Shot from a camera whose position and viewing direction are
    finite, the new body has no NaN in its position or its velocity. *)
Theorem shootSphere_no_nan cam s :
  vecFinite (Camera.position cam) -> vecFinite (Camera.worldDirection cam) ->
  vecNoNaN (Body.position (bodies (shootSphere cam s) (nextBody s))) /\
  vecNoNaN (Body.velocity (bodies (shootSphere cam s) (nextBody s))).
Proof.
  intros (Hpx & Hpy & Hpz) (Hdx & Hdy & Hdz).
  cbn [shootSphere bodies]. rewrite fn_lookup_insert. unfold vecNoNaN.
  cbn [Body.position Body.velocity Vector3.x Vector3.y Vector3.z
       Vector3.add Vector3.multiplyScalar].
  split_and!;
    first [ apply add_not_nan; [done|]; by apply mul_not_nan | by apply mul_not_nan ].
Qed.

Lemma shootSphere_no_nan_witness :
  vecNoNaN (Body.position (bodies (shootSphere initialCamera initialSim) 1%nat)) /\
  vecNoNaN (Body.velocity (bodies (shootSphere initialCamera initialSim) 1%nat)).
Proof.
  apply (shootSphere_no_nan initialCamera initialSim); vm_compute; repeat split.
Defined.


(** X13. The spawner and the click listener of the entry point without
    controller are the same functions as those of the first-person demo. *)
Theorem basic_spawner_same :
  (forall cam s, Basic.shootSphere cam s = shootSphere cam s) /\
  (forall st, Basic.onClick st = onClick st).
Proof. split; reflexivity. Qed.

(** ** The key listeners *)

(** X14. A key code the listeners do not know changes nothing, neither on
    key-down nor on key-up; releasing the jump key changes nothing
    either. *)
Theorem unknown_keys_ignored code p :
  movementKey code = false ->
  handleKeyUp code p = p /\
  (code <> "Space"%string -> handleKeyDown code p = p).
Proof.
  unfold movementKey, bound, handleKeyUp, handleKeyDown.
  case_codes code; done.
Qed.

Lemma unknown_keys_ignored_witness :
  handleKeyUp "Space" standingPlayer = standingPlayer /\
  handleKeyDown "KeyQ" standingPlayer = standingPlayer.
Proof.
  split.
  - apply (unknown_keys_ignored "Space" standingPlayer). reflexivity.
  - apply (unknown_keys_ignored "KeyQ" standingPlayer); [reflexivity|done].
Defined.

(** X15. Both listeners are idempotent: a key-down repeated by the keyboard
    while the key is held, or a repeated key-up, does nothing more than the
    first one.  In particular holding the jump key does not jump twice. *)
Theorem key_repeat_harmless code p :
  handleKeyDown code (handleKeyDown code p) = handleKeyDown code p /\
  handleKeyUp code (handleKeyUp code p) = handleKeyUp code p.
Proof.
  unfold handleKeyDown, handleKeyUp.
  case_codes code; try done.
  split; [|done]. destruct (canJump p) eqn:Hj; cbn; by rewrite ?Hj.
Qed.

(** What one key event leaves alone, and what it can do to the jump. *)
Lemma dispatchKey_jump ev p :
  camera (dispatchKey ev p) = camera p /\
  direction (dispatchKey ev p) = direction p /\
  isLocked (dispatchKey ev p) = isLocked p /\
  Vector3.x (velocity (dispatchKey ev p)) = Vector3.x (velocity p) /\
  Vector3.z (velocity (dispatchKey ev p)) = Vector3.z (velocity p) /\
  ((velocity (dispatchKey ev p) = velocity p /\ canJump (dispatchKey ev p) = canJump p) \/
   (canJump p = true /\ canJump (dispatchKey ev p) = false /\
    Vector3.y (velocity (dispatchKey ev p)) = (Vector3.y (velocity p) + jumpImpulse)%num)).
Proof.
  destruct ev as [c|c]; cbn [dispatchKey]; unfold handleKeyDown, handleKeyUp;
    case_codes c; try (split_and!; try done; by left).
  destruct (canJump p) eqn:Hj; cbn; split_and!; try done; [by right|by left].
Qed.

(** X16. Key events alone never re-arm the jump and never move the camera:
    over any sequence of key events the camera, the direction vector, the
    pointer lock and the horizontal velocity stay as they were, [canJump]
    can only go from true to false, and [velocity.y] receives the impulse
    [350] at most once, and only if [canJump] was true. *)
Theorem keys_jump_at_most_once evs p :
  camera (dispatchKeys evs p) = camera p /\
  direction (dispatchKeys evs p) = direction p /\
  isLocked (dispatchKeys evs p) = isLocked p /\
  Vector3.x (velocity (dispatchKeys evs p)) = Vector3.x (velocity p) /\
  Vector3.z (velocity (dispatchKeys evs p)) = Vector3.z (velocity p) /\
  (canJump (dispatchKeys evs p) = true -> canJump p = true) /\
  ((velocity (dispatchKeys evs p) = velocity p /\
    canJump (dispatchKeys evs p) = canJump p) \/
   (canJump p = true /\ canJump (dispatchKeys evs p) = false /\
    Vector3.y (velocity (dispatchKeys evs p)) = (Vector3.y (velocity p) + jumpImpulse)%num)).
Proof.
  induction evs as [|ev evs IH] using rev_ind.
  - split_and!; try done. by left.
  - rewrite dispatchKeys_snoc.
    destruct IH as (IHc & IHd & IHl & IHx & IHz & IHj & IHv).
    destruct (dispatchKey_jump ev (dispatchKeys evs p)) as (Hc & Hd & Hl & Hx & Hz & Hv).
    rewrite Hc, Hd, Hl, Hx, Hz. split_and!; try done.
    + intros Hj. destruct Hv as [[_ Hsame]|(_ & Hfalse & _)]; [|congruence].
      apply IHj. congruence.
    + destruct Hv as [[Hv Hj]|(Hj & Hj' & Hy)].
      * rewrite Hv, Hj. exact IHv.
      * right. destruct IHv as [[Hv0 Hj0]|(_ & Hj0 & _)]; [|congruence].
        split_and!; [congruence|done|]. by rewrite Hy, Hv0.
Qed.

(** X17. Pressing and releasing a key other than the jump key leaves the
    state a lone release would leave: the flag of the key is down and
    nothing else has changed. *)
Theorem press_then_release code p :
  code <> "Space"%string ->
  handleKeyUp code (handleKeyDown code p) = handleKeyUp code p.
Proof.
  intros Hs. unfold handleKeyDown, handleKeyUp.
  case_codes code; try done.
Qed.

Lemma press_then_release_witness :
  handleKeyUp "KeyW" (handleKeyDown "KeyW" initialPlayer) = initialPlayer.
Proof. apply (press_then_release "KeyW" initialPlayer). done. Defined.

(** ** The controller *)

Lemma controller_above_ground dt p :
  Num.ltb (Vector3.y (Camera.position (camera (controller dt p)))) eyeHeight = false.
Proof.
  unfold controller, groundClamp.
  set (fallen := controllerMove dt (controllerDirection dt (controllerDamping dt p))).
  destruct (Num.ltb (Vector3.y (Camera.position (camera fallen))) eyeHeight) eqn:Hlt;
    [reflexivity|exact Hlt].
Qed.

(** X18. A controller step reads the movement flags and never writes them;
    it leaves the pointer lock and the camera's orientation alone; it may
    set [canJump] but never clears it; and the direction it leaves behind
    is the one computed from the flags. *)
Theorem controller_frame dt p :
  (moveForward (controller dt p) = moveForward p /\
   moveBackward (controller dt p) = moveBackward p /\
   moveLeft (controller dt p) = moveLeft p /\
   moveRight (controller dt p) = moveRight p) /\
  isLocked (controller dt p) = isLocked p /\
  (Camera.up (camera (controller dt p)) = Camera.up (camera p) /\
   Camera.matrixColumn0 (camera (controller dt p)) = Camera.matrixColumn0 (camera p) /\
   Camera.worldDirection (camera (controller dt p)) = Camera.worldDirection (camera p)) /\
  (canJump p = true -> canJump (controller dt p) = true) /\
  direction (controller dt p) = steering p.
Proof.
  unfold controller, groundClamp.
  set (fallen := controllerMove dt (controllerDirection dt (controllerDamping dt p))).
  destruct (Num.ltb (Vector3.y (Camera.position (camera fallen))) eyeHeight);
    split_and!; done.
Qed.

(** X19. With [direction.y] at zero the direction follows the keys: a
    component is zero exactly when its two keys are both up or both down,
    it is positive for forward and for right and negative for backward and
    for left, the two components have the same magnitude when both axes are
    active, and the vector is never longer than one, so that walking
    diagonally is not faster than walking straight. *)
Theorem steering_from_flags p :
  Num.is_zero (Vector3.y (direction p)) = true ->
  (Num.is_zero (Vector3.z (steering p)) = true <-> moveForward p = moveBackward p) /\
  (Num.is_zero (Vector3.x (steering p)) = true <-> moveRight p = moveLeft p) /\
  (moveForward p = true -> moveBackward p = false ->
   Num.ltb (Num.ofZ 0) (Vector3.z (steering p)) = true) /\
  (moveForward p = false -> moveBackward p = true ->
   Num.ltb (Vector3.z (steering p)) (Num.ofZ 0) = true) /\
  (moveRight p = true -> moveLeft p = false ->
   Num.ltb (Num.ofZ 0) (Vector3.x (steering p)) = true) /\
  (moveRight p = false -> moveLeft p = true ->
   Num.ltb (Vector3.x (steering p)) (Num.ofZ 0) = true) /\
  (moveForward p <> moveBackward p -> moveRight p <> moveLeft p ->
   SFabs (Vector3.x (steering p)) = SFabs (Vector3.z (steering p))) /\
  (moveForward p <> moveBackward p -> moveRight p = moveLeft p ->
   SFabs (Vector3.z (steering p)) = Num.ofZ 1) /\
  (moveForward p = moveBackward p -> moveRight p <> moveLeft p ->
   SFabs (Vector3.x (steering p)) = Num.ofZ 1) /\
  Num.ltb (Num.ofZ 1) (Vector3.length (steering p)) = false.
Proof.
  destruct p as [f b l r j v [dx dy dz] c k]. unfold steering.
  cbn [direction moveForward moveBackward moveLeft moveRight Vector3.y].
  destruct dy as [s| | |]; try done. intros _.
  destruct s, f, b, l, r; vm_compute; split_and!; try split; try done.
Qed.

Lemma steering_from_flags_witness :
  Num.ltb (Num.ofZ 0) (Vector3.z (steering walkingPlayer)) = true /\
  Num.is_zero (Vector3.x (steering walkingPlayer)) = true.
Proof.
  destruct (steering_from_flags walkingPlayer) as (_ & Hx & Hz & _).
  - reflexivity.
  - split; [by apply Hz|by apply Hx].
Defined.


Lemma sub_zeros (a b : Num.t) :
  Num.is_zero a = true -> Num.is_zero b = true -> Num.is_zero (a - b)%num = true.
Proof. destruct a as [sa| | |], b as [sb| | |]; try done. by destruct sa, sb. Qed.

Lemma damp_zero (v dt : Num.t) :
  Num.is_zero v = true -> Num.is_finite dt = true ->
  Num.is_zero (v - v * damping * dt)%num = true.
Proof.
  intros Hv Hdt. apply sub_zeros; [done|].
  apply mul_zero_l; [|done]. by apply mul_zero_l.
Qed.

Lemma neg_zero_mul (v dt : Num.t) :
  Num.is_zero v = true -> Num.is_finite dt = true -> Num.is_zero (- v * dt)%num = true.
Proof. intros Hv Hdt. apply mul_zero_l; [by destruct v|done]. Qed.

Lemma controllerDamping_idle dt p :
  idle p -> Num.is_finite dt = true -> idle (controllerDamping dt p).
Proof.
  destruct p as [f b l r j [vx vy vz] d c k].
  intros (Hf & Hb & Hl & Hr & Hvx & Hvz) Hdt. unfold idle, controllerDamping.
  cbn in Hf, Hb, Hl, Hr, Hvx, Hvz.
  cbn [moveForward moveBackward moveLeft moveRight velocity set_velocity
       Vector3.x Vector3.z Vector3.y Vector3.set_x Vector3.set_y Vector3.set_z].
  split_and!; try assumption; by apply damp_zero.
Qed.

Lemma controllerDirection_idle dt p : idle p -> idle (controllerDirection dt p).
Proof.
  destruct p as [f b l r j [vx vy vz] d c k].
  intros (Hf & Hb & Hl & Hr & Hvx & Hvz).
  cbn in Hf, Hb, Hl, Hr, Hvx, Hvz. subst f b l r.
  unfold idle, controllerDirection.
  cbn [moveForward moveBackward moveLeft moveRight velocity set_velocity set_direction
       orb Vector3.x Vector3.z].
  split_and!; try reflexivity; assumption.
Qed.

(** Moving a camera by zero distances along finite axes. *)
Lemma controllerMove_idle dt p :
  idle p -> Num.is_finite dt = true ->
  vecNoNaN (Camera.position (camera p)) ->
  vecFinite (Camera.matrixColumn0 (camera p)) -> vecFinite (forwardAxis (camera p)) ->
  idle (controllerMove dt p) /\
  Num.eqb (Vector3.x (Camera.position (camera (controllerMove dt p))))
          (Vector3.x (Camera.position (camera p))) = true /\
  Num.eqb (Vector3.z (Camera.position (camera (controllerMove dt p))))
          (Vector3.z (Camera.position (camera p))) = true.
Proof.
  intros Hidle Hdt Hpos Hright Hfwd.
  pose proof Hidle as (_ & _ & _ & _ & Hvx & Hvz).
  pose proof (addScaledVector_zero _ _ _ Hpos Hright (neg_zero_mul _ _ Hvx Hdt)) as H1.
  pose proof (addScaledVector_zero _ _ _ (vecSame_no_nan _ _ H1) Hfwd
                (neg_zero_mul _ _ Hvz Hdt)) as H2.
  pose proof (vecSame_trans _ _ _ H2 H1) as (Hx & _ & Hz).
  split; [exact Hidle|]. split; [exact Hx|exact Hz].
Qed.

Lemma groundClamp_idle p :
  idle p -> idle (groundClamp p) /\
  Vector3.x (Camera.position (camera (groundClamp p))) =
    Vector3.x (Camera.position (camera p)) /\
  Vector3.z (Camera.position (camera (groundClamp p))) =
    Vector3.z (Camera.position (camera p)).
Proof.
  intros Hidle. unfold groundClamp.
  destruct (Num.ltb _ eyeHeight); [|done].
  split; [exact Hidle|]. split; reflexivity.
Qed.

(** X20. With no movement key held and no horizontal velocity, a controller
    step over any finite time keeps the horizontal velocity at zero and the
    camera where it is in the horizontal plane: the player does not drift.
    The camera position is a number and its two horizontal axes are
    finite. *)
Theorem controller_idle dt p :
  idle p -> Num.is_finite dt = true ->
  vecNoNaN (Camera.position (camera p)) ->
  vecFinite (Camera.matrixColumn0 (camera p)) -> vecFinite (forwardAxis (camera p)) ->
  idle (controller dt p) /\
  Num.eqb (Vector3.x (Camera.position (camera (controller dt p))))
          (Vector3.x (Camera.position (camera p))) = true /\
  Num.eqb (Vector3.z (Camera.position (camera (controller dt p))))
          (Vector3.z (Camera.position (camera p))) = true.
Proof.
  intros Hidle Hdt Hpos Hright Hfwd.
  pose proof (controllerDirection_idle dt _ (controllerDamping_idle dt p Hidle Hdt)) as H2.
  destruct (controllerMove_idle dt _ H2 Hdt Hpos Hright Hfwd) as (H3 & Hx & Hz).
  destruct (groundClamp_idle _ H3) as (H4 & Hx' & Hz').
  unfold controller. split; [exact H4|].
  rewrite Hx', Hz'. split; [exact Hx|exact Hz].
Qed.

Lemma controller_idle_witness :
  idle (controller frameTime initialPlayer) /\
  Num.eqb (Vector3.x (Camera.position (camera (controller frameTime initialPlayer))))
          (Vector3.x (Camera.position (camera initialPlayer))) = true.
Proof.
  destruct (controller_idle frameTime initialPlayer) as (Hi & Hx & _).
  - vm_compute. repeat split.
  - reflexivity.
  - vm_compute. repeat split.
  - vm_compute. repeat split.
  - vm_compute. repeat split.
  - split; [exact Hi|exact Hx].
Defined.

(** ** Runs of the program *)

Lemma performAll_cons a acts st : performAll (a :: acts) st = performAll acts (perform a st).
Proof. reflexivity. Qed.

Lemma performAllBasic_cons a acts st :
  performAllBasic (a :: acts) st = performAllBasic acts (performBasic a st).
Proof. reflexivity. Qed.

Lemma dispatchKey_isLocked ev p : isLocked (dispatchKey ev p) = isLocked p.
Proof. by destruct (dispatchKey_jump ev p) as (_ & _ & H & _). Qed.

Lemma dispatchKey_camera ev p : camera (dispatchKey ev p) = camera p.
Proof. by destruct (dispatchKey_jump ev p) as (H & _). Qed.

Lemma tick_isLocked step t st : isLocked (player (tick step t st)) = isLocked (player st).
Proof.
  cbn [tick player]. destruct (isLocked (player st)) eqn:Hl; [|done].
  by rewrite controller_isLocked.
Qed.

Lemma tick_registry_le step t st :
  (length (sphereToUpdate (sim (tick step t st))) <= length (sphereToUpdate (sim st)))%nat.
Proof.
  cbn [tick sim]. rewrite updateSpheres_sphereToUpdate.
  etransitivity; [apply filter_length_le|]. done.
Qed.

(** X21. The registry never holds more projectiles than were fired: over
    any run of key events, clicks, lock changes, camera turns and frames,
    its length grows by at most the number of clicks that arrived while the
    pointer was locked. *)
Theorem registry_bounded_by_shots acts st :
  (length (sphereToUpdate (sim (performAll acts st))) <=
   length (sphereToUpdate (sim st)) + shotsFired (isLocked (player st)) acts)%nat.
Proof.
  revert st. induction acts as [|a acts IH]; intros st; [simpl; lia|].
  rewrite performAll_cons. etransitivity; [apply IH|].
  destruct a as [ev| | | |c0 d|step t]; cbn [perform shotsFired].
  - cbn [sim player]. by rewrite dispatchKey_isLocked.
  - unfold onClick. destruct (isLocked (player st)) eqn:Hl.
    + cbn [sim player shootSphere sphereToUpdate]. rewrite Hl, length_app. simpl. lia.
    + rewrite Hl. lia.
  - cbn [sim player set_isLocked isLocked]. lia.
  - cbn [sim player set_isLocked isLocked]. lia.
  - cbn [sim player turnCamera set_camera isLocked]. lia.
  - rewrite tick_isLocked. pose proof (tick_registry_le step t st). lia.
Qed.

Lemma basic_tick_registry step t st :
  sphereToUpdate (sim (Basic.tick step t st)) = sphereToUpdate (sim st).
Proof.
  cbn [Basic.tick sim]. unfold Basic.syncSpheres.
  by destruct (syncSpheres_list_fields
                 (sphereToUpdate (set_bodies
                    (step (Num.ofZ 1 / Num.ofZ 60)%num (t - previousTime st)%num 3%nat
                          (world (sim st)) (bodies (sim st))) (sim st)))
                 (set_bodies
                    (step (Num.ofZ 1 / Num.ofZ 60)%num (t - previousTime st)%num 3%nat
                          (world (sim st)) (bodies (sim st))) (sim st)))
    as (_ & _ & _ & -> & _).
Qed.

(** X22. The entry point without controller never removes a projectile:
    over any run the registry grows by exactly the number of clicks that
    arrived while the pointer was locked, whatever the bodies do. *)
Theorem basic_registry_counts_shots acts st :
  length (sphereToUpdate (sim (performAllBasic acts st))) =
  (length (sphereToUpdate (sim st)) + shotsFired (isLocked (player st)) acts)%nat.
Proof.
  revert st. induction acts as [|a acts IH]; intros st; [simpl; lia|].
  rewrite performAllBasic_cons, IH.
  destruct a as [ev| | | |c0 d|step t]; cbn [performBasic shotsFired].
  - done.
  - unfold Basic.onClick. destruct (isLocked (player st)) eqn:Hl.
    + cbn [sim player Basic.shootSphere sphereToUpdate]. rewrite Hl, length_app. simpl. lia.
    + rewrite Hl. lia.
  - done.
  - done.
  - done.
  - by rewrite basic_tick_registry.
Qed.

Lemma perform_reachable a st :
  lawful a -> reachable (sim st) -> reachable (sim (perform a st)).
Proof.
  intros Ha Hr. destruct a as [ev| | | |c0 d|step t]; cbn [perform sim]; try done.
  - unfold onClick. destruct (isLocked (player st)); [|done]. by apply reach_shoot.
  - cbn [tick sim]. by apply reach_update, reach_step.
Qed.

(** X23. Over every run of the program in which the physics library keeps
    the shapes of the bodies, scene, world and registry stay consistent:
    the projectile meshes in the scene and the projectile bodies in the
    world are exactly those of the registry, in the same order. *)
Theorem run_consistent acts :
  Forall lawful acts ->
  reachable (sim (performAll acts initialState)) /\
  consistent (sim (performAll acts initialState)) /\
  projectileMeshes (sim (performAll acts initialState)) =
    entryMesh <$> sphereToUpdate (sim (performAll acts initialState)) /\
  projectileBodies (sim (performAll acts initialState)) =
    body <$> sphereToUpdate (sim (performAll acts initialState)).
Proof.
  intros Hl.
  assert (Hr : reachable (sim (performAll acts initialState))).
  { assert (Hgen : forall st, reachable (sim st) -> reachable (sim (performAll acts st))).
    { induction Hl as [|a acts Ha _ IH]; intros st Hst; [done|].
      rewrite performAll_cons. by apply IH, perform_reachable. }
    apply Hgen, reach_init. }
  pose proof (reachable_consistent _ Hr) as Hc.
  split_and!; [done|done| |].
  - apply (meshes_registered _ Hc).
  - apply (bodies_registered _ Hc).
Qed.

Lemma run_consistent_witness :
  consistent (sim (performAll [Lock; Click; Frame stillStep frameTime; Key (KeyDown "KeyW")]
                              initialState)).
Proof.
  apply (run_consistent [Lock; Click; Frame stillStep frameTime; Key (KeyDown "KeyW")]).
  repeat constructor.
Defined.

Lemma perform_grounded a st : grounded (player st) -> grounded (player (perform a st)).
Proof.
  intros (Hy & Hd & Hu). destruct a as [ev| | | |c0 d|step t]; cbn [perform player].
  - destruct (direction_stays_flat) as (_ & Hkey & _).
    unfold grounded. rewrite dispatchKey_camera. split_and!; [done| |done].
    by apply Hkey.
  - unfold onClick. by destruct (isLocked (player st)).
  - done.
  - done.
  - done.
  - cbn [tick player]. destruct (isLocked (player st)); [|done].
    destruct (direction_stays_flat) as (_ & _ & Hctl).
    split_and!.
    + apply controller_above_ground.
    + by apply Hctl.
    + etransitivity; [|exact Hu]. unfold controller, groundClamp.
      set (fallen := controllerMove _ _).
      by destruct (Num.ltb (Vector3.y (Camera.position (camera fallen))) eyeHeight).
Qed.

(** X24. Over every run of the program from its initial state the camera is
    never below the eye height [10], [direction.y] stays zero and the
    camera's up vector stays the y axis, whatever the keys, the clicks, the
    mouse and the clock do. *)
Theorem run_grounded acts :
  Num.ltb (Vector3.y (Camera.position (camera (player (performAll acts initialState)))))
          eyeHeight = false /\
  Num.is_zero (Vector3.y (direction (player (performAll acts initialState)))) = true /\
  Camera.up (camera (player (performAll acts initialState))) =
    Vector3.mk (Num.ofZ 0) (Num.ofZ 1) (Num.ofZ 0).
Proof.
  assert (Hgen : forall st, grounded (player st) -> grounded (player (performAll acts st))).
  { induction acts as [|a acts IH]; intros st Hst; [done|].
    rewrite performAll_cons. by apply IH, perform_grounded. }
  apply (Hgen initialState). by split_and!.
Qed.

(** ** The resize listener *)

Lemma ltb_asym (a b : Num.t) : Num.ltb a b = true -> Num.ltb b a = false.
Proof.
  unfold Num.ltb, SFltb.
  destruct a as [sa|sa| |sa ma ea], b as [sb|sb| |sb mb eb]; simpl;
    try destruct sa; try destruct sb; simpl; try done.
  all: rewrite (Z.compare_antisym ea eb); destruct (ea ?= eb); simpl; try done.
  all: change (Pos.compare_cont Eq mb ma) with (Pos.compare mb ma).
  all: change (Pos.compare_cont Eq ma mb) with (Pos.compare ma mb).
  all: rewrite (Pos.compare_antisym ma mb); by destruct (Pos.compare ma mb).
Qed.

(** X25. The resize listener overwrites everything it manages from the
    window alone.  The pixel ratio it hands to the renderer is never above
    [2]: it is the device's ratio below [2], [2] above, and NaN only for a
    NaN ratio.  The aspect ratio is the plain quotient
    width / height: for a window of height zero it is an infinity or NaN,
    never a finite number. *)
Theorem resize_caps_pixel_ratio innerWidth innerHeight devicePixelRatio v :
  let v' := onResize innerWidth innerHeight devicePixelRatio v in
  (sizesWidth v' = innerWidth /\ sizesHeight v' = innerHeight /\
   rendererWidth v' = innerWidth /\ rendererHeight v' = innerHeight /\
   cameraAspect v' = (innerWidth / innerHeight)%num) /\
  (forall v0, onResize innerWidth innerHeight devicePixelRatio v0 = v') /\
  Num.ltb (Num.ofZ 2) (rendererPixelRatio v') = false /\
  (Num.ltb devicePixelRatio (Num.ofZ 2) = true -> rendererPixelRatio v' = devicePixelRatio) /\
  (Num.ltb (Num.ofZ 2) devicePixelRatio = true -> rendererPixelRatio v' = Num.ofZ 2) /\
  (Num.is_nan (rendererPixelRatio v') = true -> Num.is_nan devicePixelRatio = true) /\
  (Num.is_zero innerHeight = true -> Num.is_finite (cameraAspect v') = false).
Proof.
  cbv zeta. unfold onResize.
  cbn [sizesWidth sizesHeight cameraAspect rendererWidth rendererHeight rendererPixelRatio].
  split_and!; try reflexivity.
  - unfold mathMin. destruct (Num.is_nan devicePixelRatio) eqn:Hn.
    + reflexivity.
    + cbn [orb Num.is_nan Num.ofZ]. change (Num.is_nan (Num.ofZ 2)) with false.
      cbn [orb].
      destruct (Num.ltb devicePixelRatio (Num.ofZ 2)) eqn:Hlt; [by apply ltb_asym|].
      destruct (Num.ltb (Num.ofZ 2) devicePixelRatio) eqn:Hgt; [reflexivity|].
      by destruct devicePixelRatio.
  - intros Hlt. unfold mathMin. rewrite Hlt.
    by destruct devicePixelRatio.
  - intros Hgt. unfold mathMin. rewrite Hgt, (ltb_asym _ _ Hgt).
    by destruct devicePixelRatio.
  - unfold mathMin. destruct (Num.is_nan devicePixelRatio) eqn:Hn; [done|].
    change (Num.is_nan (Num.ofZ 2)) with false. cbn [orb].
    destruct (Num.ltb devicePixelRatio (Num.ofZ 2)); [by rewrite Hn|].
    destruct (Num.ltb (Num.ofZ 2) devicePixelRatio); [done|].
    by destruct devicePixelRatio.
  - intros Hz. by destruct innerHeight, innerWidth.
Qed.
